(** * Prefix-notation calculator: exceptions versus results

    A shallow embedding of the two recursive-descent evaluators of
    [parser_with_exceptions.cpp] and [parser_with_results.cpp], and the
    properties of their shared grammar, error taxonomy and cursor. *)

From Stdlib Require Import ZArith List Ascii String Bool Arith Lia.
Import ListNotations.

(** ** Characters

    A C++ [char] is one byte, here an [ascii].  The source only compares
    characters for equality, tests the range ['0'..'9'] and subtracts ['0']
    from a digit, all of which are independent of the signedness of [char];
    [code] is the byte value. *)

Definition code (c : ascii) : Z := Z.of_N (N_of_ascii c).

(** [std::isdigit] in the default "C" locale (the program never calls
    [setlocale]): the ten ASCII digits, no byte beyond ASCII. *)
Definition isdigit (c : ascii) : bool :=
  ((48 <=? code c) && (code c <=? 57))%Z.

(** [std::iswspace] in the default "C" locale: space, and the five controls
    horizontal tab, line feed, vertical tab, form feed, carriage return; no
    byte beyond ASCII. *)
Definition iswspace (c : ascii) : bool :=
  ((code c =? 32) || ((9 <=? code c) && (code c <=? 13)))%Z.

(** ** 64-bit integers

    [int64_t] values are integers in [-2^63, 2^63).  The source checks no
    overflow; additions, subtractions and multiplications are taken to wrap
    around modulo [2^64], as the compiled two's complement arithmetic
    does. *)

Definition int64 : Type := Z.

Definition INT64_MIN : Z := - 2 ^ 63.
Definition INT64_MAX : Z := 2 ^ 63 - 1.

Definition wrap64 (z : Z) : int64 :=
  ((z + 2 ^ 63) mod 2 ^ 64 - 2 ^ 63)%Z.

Definition in_int64 (z : Z) : Prop := (INT64_MIN <= z <= INT64_MAX)%Z.

(** ** parser.hpp *)

Inductive ErrorKind : Type :=
| InvalidOperator
| InvalidCharacter
| UnexpectedEOF.

(** ** The machine underneath both parsers

    Both [Parser] structs hold the same two pointers into the program text:
    [p], the read position, and [end].  Here they are offsets into [data],
    the bytes of the program. *)

Record Parser : Type := mkParser {
  data : list ascii;
  p : nat;
  end_ : nat
}.

(** [Parser(const std::string& program)] *)
Definition Parser_of (program : string) : Parser :=
  let bytes := list_ascii_of_string program in
  mkParser bytes 0 (List.length bytes).

(** What C++ leaves undefined and the source does not guard: a read outside
    the program text, a division by zero, and the one quotient that does not
    fit ([INT64_MIN / -1]; like the division by zero it traps on x86-64). *)
Inductive Undefined : Type :=
| ReadPastEnd
| DivideByZero
| DivideOverflow.

(** The outcome of running a piece of parser code from a state: it finishes
    with a value and a new state, or hits undefined behaviour, or the
    bounded unrolling of its loops and recursion was too short. *)
Inductive run (A : Type) : Type :=
| Done (a : A) (s : Parser)
| Undef (u : Undefined)
| OutOfFuel.

Arguments Done {A} a s.
Arguments Undef {A} u.
Arguments OutOfFuel {A}.

Definition M (A : Type) : Type := Parser -> run A.

Definition ret {A} (a : A) : M A := fun s => Done a s.

Definition bind {A B} (m : M A) (k : A -> M B) : M B :=
  fun s =>
    match m s with
    | Done a s' => k a s'
    | Undef u => Undef u
    | OutOfFuel => OutOfFuel
    end.

Declare Scope machine_scope.
Delimit Scope machine_scope with machine.
Notation "x <- m ;; k" := (bind m (fun x => k))
  (at level 61, m at next level, right associativity) : machine_scope.
Notation "m ;; k" := (bind m (fun _ => k))
  (at level 61, right associativity) : machine_scope.

(** [p == end] *)
Definition at_end : M bool := fun s => Done (p s =? end_ s) s.

(** [*p] *)
Definition deref : M ascii :=
  fun s =>
    match nth_error (data s) (p s) with
    | Some c => Done c s
    | None => Undef ReadPastEnd
    end.

(** [p++] *)
Definition incr : M unit :=
  fun s => Done tt (mkParser (data s) (S (p s)) (end_ s)).

(** [enum class Op], the same in both parsers. *)
Inductive Op : Type := Add | Sub | Mul | Div.

(** The arithmetic of the [switch (op)] of [inner_expression]. *)
Definition apply_op (op : Op) (left right : int64) : Undefined + int64 :=
  match op with
  | Add => inr (wrap64 (left + right))
  | Sub => inr (wrap64 (left - right))
  | Mul => inr (wrap64 (left * right))
  | Div =>
      if (right =? 0)%Z then inl DivideByZero
      else if ((left =? INT64_MIN) && (right =? -1))%Z then inl DivideOverflow
      else inr (Z.quot left right)
  end.

(** What a caller of [execute] sees. *)
Inductive behaviour : Type :=
| Returns (v : int64)
| Crashes (u : Undefined)
| Unfinished.

(** The unrolling bound [execute] is run with: one more than the length of
    the program, which is enough: parsing finishes within it, and with the
    same result for any larger bound. *)
Definition fuel_for (program : string) : nat := S (String.length program).

(** ** parser_with_results.cpp *)

Module ParserWithResults.

Local Open Scope machine_scope.

(** [template <class T> struct Result]: the tag [is_error] selects the
    member of the union. *)
Inductive Result (T : Type) : Type :=
| Ok (ok : T)
| Err (error : ErrorKind).

Arguments Ok {T} ok.
Arguments Err {T} error.

Definition get_char : M (Result ascii) :=
  e <- at_end ;;
  if e then ret (Err UnexpectedEOF)
  else c <- deref ;; incr ;; ret (Ok c).

Definition peek : M ascii :=
  e <- at_end ;;
  if e then ret zero
  else deref.

(** [while (std::iswspace(peek())) get_char();] The result of [get_char]
    is dropped, as in the source. *)
Fixpoint skip_whitespace (fuel : nat) : M unit :=
  match fuel with
  | O => fun _ => OutOfFuel
  | S fuel' =>
      c <- peek ;;
      if iswspace c then get_char ;; skip_whitespace fuel'
      else ret tt
  end.

Definition expect_char (c : ascii) : M (Result ascii) :=
  x <- get_char ;;
  match x with
  | Err _ => ret x
  | Ok ok => if negb (Ascii.eqb ok c) then ret (Err InvalidCharacter)
             else ret x
  end.

(** The loop of [number], with the accumulator [result]. *)
Fixpoint number_loop (fuel : nat) (result : int64) : M (Result int64) :=
  match fuel with
  | O => fun _ => OutOfFuel
  | S fuel' =>
      d <- peek ;;
      if isdigit d then
        c <- get_char ;;
        match c with
        | Err error => ret (Err error)
        | Ok ok =>
            let result := wrap64 (result * 10) in
            let result := wrap64 (result + (code ok - code "0")) in
            number_loop fuel' result
        end
      else ret (Ok result)
  end.

Definition number (fuel : nat) : M (Result int64) := number_loop fuel 0%Z.

Definition operation : M (Result Op) :=
  c <- get_char ;;
  match c with
  | Err error => ret (Err error)
  | Ok ok =>
      if Ascii.eqb ok "+" then ret (Ok Add)
      else if Ascii.eqb ok "-" then ret (Ok Sub)
      else if Ascii.eqb ok "*" then ret (Ok Mul)
      else if Ascii.eqb ok "/" then ret (Ok Div)
      else ret (Err InvalidOperator)
  end.

(** [inner_expression] and [expression] are mutually recursive; the
    recursive entry point is passed in.  The [default:] arm of the
    [switch] has no counterpart: [Op] has four values. *)
Definition inner_expression (expression : M (Result int64))
  : M (Result int64) :=
  op <- operation ;;
  match op with
  | Err error => ret (Err error)
  | Ok o =>
      left <- expression ;;
      match left with
      | Err _ => ret left
      | Ok l =>
          right <- expression ;;
          match right with
          | Err _ => ret right
          | Ok r =>
              match apply_op o l r with
              | inl u => fun _ => Undef u
              | inr v => ret (Ok v)
              end
          end
      end
  end.

(** The body of [expression]; [fuel] bounds its loops and [expression]
    is the recursive entry point. *)
Definition expression_body (fuel : nat) (expression : M (Result int64))
  : M (Result int64) :=
  skip_whitespace fuel ;;
  c <- peek ;;
  if Ascii.eqb c "(" then
    get_char ;;
    skip_whitespace fuel ;;
    val <- expression ;;
    match val with
    | Err _ => ret val
    | Ok _ =>
        skip_whitespace fuel ;;
        x <- expect_char ")" ;;
        match x with
        | Err error => ret (Err error)
        | Ok _ => ret val
        end
    end
  else if ((code "0" <=? code c) && (code c <=? code "9"))%Z then
    number fuel
  else
    inner_expression expression.

Fixpoint expression (fuel : nat) : M (Result int64) :=
  match fuel with
  | O => fun _ => OutOfFuel
  | S fuel' => expression_body fuel (expression fuel')
  end.

(** The raw classified result of a parse: the [Result<int64_t>] that
    [execute] inspects. *)
Definition classify (program : string) : run (Result int64) :=
  expression (fuel_for program) (Parser_of program).

Definition execute (program : string) : behaviour :=
  match classify program with
  | Done result _ =>
      match result with
      | Err _ => Returns 0%Z
      | Ok ok => Returns ok
      end
  | Undef u => Crashes u
  | OutOfFuel => Unfinished
  end.

End ParserWithResults.

(** ** parser_with_exceptions.cpp *)

Module ParserWithExceptions.

(** [struct Error { ErrorKind kind; }], the exception type. *)
Record Error : Type := mkError { kind : ErrorKind }.

(** How a call completes: normally with a value, or by a [throw] that
    unwinds to the nearest handler. *)
Inductive completion (A : Type) : Type :=
| Normal (a : A)
| Thrown (e : Error).

Arguments Normal {A} a.
Arguments Thrown {A} e.

Definition X (A : Type) : Type := M (completion A).

Definition retX {A} (a : A) : X A := ret (Normal a).

Definition throw {A} (e : Error) : X A := ret (Thrown e).

Definition bindX {A B} (m : X A) (k : A -> X B) : X B :=
  bind m (fun r => match r with
                   | Normal a => k a
                   | Thrown e => ret (Thrown e)
                   end).

Declare Scope throwing_scope.
Delimit Scope throwing_scope with throwing.
Notation "x <- m ;; k" := (bindX m (fun x => k))
  (at level 61, m at next level, right associativity) : throwing_scope.
Notation "m ;; k" := (bindX m (fun _ => k))
  (at level 61, right associativity) : throwing_scope.

(** A step that cannot throw. *)
Definition lift {A} (m : M A) : X A := bind m (fun a => ret (Normal a)).

Local Open Scope throwing_scope.

Definition get_char : X ascii :=
  e <- lift at_end ;;
  if e then throw (mkError UnexpectedEOF)
  else c <- lift deref ;; lift incr ;; retX c.

Definition peek : X ascii :=
  e <- lift at_end ;;
  if e then retX zero
  else lift deref.

Fixpoint skip_whitespace (fuel : nat) : X unit :=
  match fuel with
  | O => fun _ => OutOfFuel
  | S fuel' =>
      c <- peek ;;
      if iswspace c then get_char ;; skip_whitespace fuel'
      else retX tt
  end.

Definition expect_char (c : ascii) : X unit :=
  x <- get_char ;;
  if negb (Ascii.eqb x c) then throw (mkError InvalidCharacter)
  else retX tt.

Fixpoint number_loop (fuel : nat) (result : int64) : X int64 :=
  match fuel with
  | O => fun _ => OutOfFuel
  | S fuel' =>
      d <- peek ;;
      if isdigit d then
        c <- get_char ;;
        let result := wrap64 (result * 10) in
        let result := wrap64 (result + (code c - code "0")) in
        number_loop fuel' result
      else retX result
  end.

Definition number (fuel : nat) : X int64 := number_loop fuel 0%Z.

Definition operation : X Op :=
  c <- get_char ;;
  if Ascii.eqb c "+" then retX Add
  else if Ascii.eqb c "-" then retX Sub
  else if Ascii.eqb c "*" then retX Mul
  else if Ascii.eqb c "/" then retX Div
  else throw (mkError InvalidOperator).

(** As in the other parser, the recursive entry point is passed in, and
    the [default:] arm of the [switch] has no counterpart. *)
Definition inner_expression (expression : X int64) : X int64 :=
  op <- operation ;;
  left <- expression ;;
  right <- expression ;;
  match apply_op op left right with
  | inl u => fun _ => Undef u
  | inr v => retX v
  end.

Definition expression_body (fuel : nat) (expression : X int64) : X int64 :=
  skip_whitespace fuel ;;
  c <- peek ;;
  if Ascii.eqb c "(" then
    get_char ;;
    skip_whitespace fuel ;;
    val <- expression ;;
    skip_whitespace fuel ;;
    expect_char ")" ;;
    retX val
  else if ((code "0" <=? code c) && (code c <=? code "9"))%Z then
    number fuel
  else
    inner_expression expression.

Fixpoint expression (fuel : nat) : X int64 :=
  match fuel with
  | O => fun _ => OutOfFuel
  | S fuel' => expression_body fuel (expression fuel')
  end.

(** The parse as [execute] runs it, before the handler. *)
Definition classify (program : string) : run (completion int64) :=
  expression (fuel_for program) (Parser_of program).

(** [try { return p.expression(); } catch (const Error&) { return 0; }] *)
Definition execute (program : string) : behaviour :=
  match classify program with
  | Done (Normal v) _ => Returns v
  | Done (Thrown _) _ => Returns 0%Z
  | Undef u => Crashes u
  | OutOfFuel => Unfinished
  end.

End ParserWithExceptions.

Module R := ParserWithResults.
Module E := ParserWithExceptions.

(** ** Cursor invariant *)

(** The state [Parser(program)] establishes: [end] is the end of the text
    and [p] is not beyond it. *)
Definition wf (s : Parser) : Prop :=
  p s <= end_ s /\ end_ s = List.length (data s).

(** The unread suffix of the text. *)
Definition rest (s : Parser) : list ascii := skipn (p s) (data s).

Definition remaining (s : Parser) : nat := end_ s - p s.

(** The state [n] characters further on. *)
Definition skip (n : nat) (s : Parser) : Parser :=
  mkParser (data s) (n + p s) (end_ s).

(** [s'] is a later state of the same parse as [s]. *)
Definition later (s s' : Parser) : Prop :=
  data s' = data s /\ end_ s' = end_ s /\ p s <= p s'.

(** Running [m] from a well-formed state neither moves the cursor backwards
    or beyond [end], nor changes the text, nor reads outside of it. *)
Definition keeps_cursor {A} (m : M A) (s : Parser) : Prop :=
  match m s with
  | Done _ s' => wf s' /\ later s s'
  | Undef u => u <> ReadPastEnd
  | OutOfFuel => True
  end.

Definition preserves {A} (m : M A) : Prop :=
  forall s, wf s -> keeps_cursor m s.

(** [m] finishes from [s] within its unrolling bound. *)
Definition finishes {A} (m : M A) (s : Parser) : Prop :=
  m s <> OutOfFuel.

(** Whatever [m] returns satisfies [Q]. *)
Definition yields {A} (Q : A -> Prop) (m : M A) : Prop :=
  forall s a s', m s = Done a s' -> Q a.

(** A successful result is an [int64_t]. *)
Definition int64_result (r : R.Result int64) : Prop :=
  match r with
  | R.Ok v => in_int64 v
  | R.Err _ => True
  end.

(** ** Reading the two error channels alike *)

(** A thrown [Error] seen as the [Result] carrying its kind. *)
Definition reify_completion {A} (c : E.completion A) : R.Result A :=
  match c with
  | E.Normal a => R.Ok a
  | E.Thrown e => R.Err (E.kind e)
  end.

Definition reify {A} (r : run (E.completion A)) : run (R.Result A) :=
  match r with
  | Done c s => Done (reify_completion c) s
  | Undef u => Undef u
  | OutOfFuel => OutOfFuel
  end.

(** A result that was not thrown. *)
Definition normally {A} (r : run A) : run (E.completion A) :=
  match r with
  | Done a s => Done (E.Normal a) s
  | Undef u => Undef u
  | OutOfFuel => OutOfFuel
  end.

(** The classification of a failed parse, if it failed. *)
Definition failure {A} (r : run (R.Result A)) : option ErrorKind :=
  match r with
  | Done (R.Err k) _ => Some k
  | _ => None
  end.

(** The classification of a parse that ended in a [throw]. *)
Definition thrown {A} (r : run (E.completion A)) : option ErrorKind :=
  failure (reify r).

(** ** The grammar of the specification

    [expression := '(' expression ')' | digit+ | operator expression
    expression], whitespace allowed before each token, a number being a
    maximal run of digits. *)

Inductive expr : Type :=
| Number (digits : list ascii)
| Paren (e : expr)
| Binary (op : Op) (e1 e2 : expr).

Definition op_char (op : Op) : ascii :=
  match op with
  | Add => "+"
  | Sub => "-"
  | Mul => "*"
  | Div => "/"
  end%char.

Definition starts_with_digit (l : list ascii) : bool :=
  match l with
  | c :: _ => isdigit c
  | [] => false
  end.

Definition ends_with_digit (l : list ascii) : bool :=
  starts_with_digit (rev l).

(** [parses text e follow]: [text] is a rendering of [e], given that
    [follow] comes after it (a number ends where the digits end, so [follow]
    must not continue it). *)
Inductive parses : list ascii -> expr -> list ascii -> Prop :=
| parses_space c text e follow :
    iswspace c = true ->
    parses text e follow ->
    parses (c :: text) e follow
| parses_number digits follow :
    digits <> [] ->
    forallb isdigit digits = true ->
    starts_with_digit follow = false ->
    parses digits (Number digits) follow
| parses_paren text e ws follow :
    parses text e (ws ++ ")"%char :: follow) ->
    forallb iswspace ws = true ->
    parses ("("%char :: text ++ ws ++ [")"%char]) (Paren e) follow
| parses_binary op text1 e1 text2 e2 follow :
    parses text1 e1 (text2 ++ follow) ->
    parses text2 e2 follow ->
    parses (op_char op :: text1 ++ text2) (Binary op e1 e2) follow.

(** A well-formed program: a rendering of some expression, with nothing
    after it. *)
Definition well_formed (program : string) (e : expr) : Prop :=
  parses (list_ascii_of_string program) e [].

(** The value of a digit, and of a run of digits read as a decimal numeral. *)
Definition digit_value (c : ascii) : Z := (code c - code "0")%Z.

Definition decimal (digits : list ascii) : Z :=
  fold_left (fun acc c => acc * 10 + digit_value c)%Z digits 0%Z.

(** The mathematical value of an expression over the integers, division
    truncating towards zero; [None] when it divides by zero. *)
Fixpoint denote (e : expr) : option Z :=
  match e with
  | Number digits => Some (decimal digits)
  | Paren e => denote e
  | Binary op e1 e2 =>
      match denote e1, denote e2 with
      | Some l, Some r =>
          match op with
          | Add => Some (l + r)
          | Sub => Some (l - r)
          | Mul => Some (l * r)
          | Div => if r =? 0 then None else Some (Z.quot l r)
          end%Z
      | _, _ => None
      end
  end.

Definition fits_int64 (o : option Z) : bool :=
  match o with
  | Some z => ((INT64_MIN <=? z) && (z <=? INT64_MAX))%Z
  | None => false
  end.

(** Every literal and every intermediate result of [e] is an [int64_t]. *)
Fixpoint fits (e : expr) : bool :=
  match e with
  | Number _ => fits_int64 (denote e)
  | Paren e => fits e
  | Binary _ e1 e2 => fits e1 && fits e2 && fits_int64 (denote e)
  end.

(** The accumulation step of [number]. *)
Definition number_step (result : int64) (c : ascii) : int64 :=
  wrap64 (wrap64 (result * 10) + (code c - code "0")).

(** The maximal runs of leading digits and of leading whitespace. *)
Fixpoint digit_run (l : list ascii) : list ascii :=
  match l with
  | c :: l' => if isdigit c then c :: digit_run l' else []
  | [] => []
  end.

Fixpoint ws_run (l : list ascii) : list ascii :=
  match l with
  | c :: l' => if iswspace c then c :: ws_run l' else []
  | [] => []
  end.

(** What the compiled code computes for [e]: wrap-around arithmetic, and the
    undefined divisions. *)
Fixpoint eval64 (e : expr) : Undefined + int64 :=
  match e with
  | Number digits => inr (fold_left number_step digits 0%Z)
  | Paren e => eval64 e
  | Binary op e1 e2 =>
      match eval64 e1 with
      | inl u => inl u
      | inr l =>
          match eval64 e2 with
          | inl u => inl u
          | inr r => apply_op op l r
          end
      end
  end.

(** The operator a character stands for, if any. *)
Definition operator_of (c : ascii) : option Op :=
  if Ascii.eqb c "+" then Some Add
  else if Ascii.eqb c "-" then Some Sub
  else if Ascii.eqb c "*" then Some Mul
  else if Ascii.eqb c "/" then Some Div
  else None.

(** The body of [expression] of the results parser as a function of the
    unread suffix: skip the whitespace, then dispatch on the first
    character.  [R_expression_body_unfold] below proves that the code
    computes it. *)
Definition dispatch (rec : M (R.Result int64)) (s : Parser)
  : run (R.Result int64) :=
  let s1 := skip (List.length (ws_run (rest s))) s in
  match rest s1 with
  | [] => Done (R.Err UnexpectedEOF) s1
  | c :: l =>
      if Ascii.eqb c "(" then
        match rec (skip (List.length (ws_run l)) (skip 1 s1)) with
        | Done (R.Ok v) s3 =>
            let s4 := skip (List.length (ws_run (rest s3))) s3 in
            match rest s4 with
            | [] => Done (R.Err UnexpectedEOF) s4
            | x :: _ =>
                if Ascii.eqb x ")" then Done (R.Ok v) (skip 1 s4)
                else Done (R.Err InvalidCharacter) (skip 1 s4)
            end
        | Done (R.Err k) s3 => Done (R.Err k) s3
        | Undef u => Undef u
        | OutOfFuel => OutOfFuel
        end
      else if isdigit c then
        Done (R.Ok (fold_left number_step (digit_run (c :: l)) 0%Z))
             (skip (List.length (digit_run (c :: l))) s1)
      else
        match operator_of c with
        | None => Done (R.Err InvalidOperator) (skip 1 s1)
        | Some op =>
            match rec (skip 1 s1) with
            | Done (R.Ok a) s3 =>
                match rec s3 with
                | Done (R.Ok b) s4 =>
                    match apply_op op a b with
                    | inl u => Undef u
                    | inr v => Done (R.Ok v) s4
                    end
                | Done (R.Err k) s4 => Done (R.Err k) s4
                | Undef u => Undef u
                | OutOfFuel => OutOfFuel
                end
            | Done (R.Err k) s3 => Done (R.Err k) s3
            | Undef u => Undef u
            | OutOfFuel => OutOfFuel
            end
        end
  end.

(** ** Comparing runs *)

(** Two runs that end alike: with the same value and the same text left
    unread, or in the same undefined operation. *)
Definition same_outcome {A} (r1 r2 : run A) : Prop :=
  match r1, r2 with
  | Done a1 s1, Done a2 s2 => a1 = a2 /\ rest s1 = rest s2
  | Undef u1, Undef u2 => u1 = u2
  | OutOfFuel, OutOfFuel => True
  | _, _ => False
  end.

(** How the parse of a cut-off text may end: with everything read, or
    with [UnexpectedEOF], or in an undefined division. *)
Definition ran_out (r : run (R.Result int64)) : Prop :=
  match r with
  | Done (R.Ok _) s' => rest s' = []
  | Done (R.Err k) _ => k = UnexpectedEOF
  | Undef _ => True
  | OutOfFuel => False
  end.

(** Where a failure of kind [k] is reported, [unread] being the text
    before the parse and [remains] the text after it: [UnexpectedEOF] with
    nothing left; the other two just behind the character [c] that caused
    them. *)
Definition failure_site (unread : list ascii) (k : ErrorKind)
  (remains : list ascii) : Prop :=
  match k with
  | UnexpectedEOF => remains = []
  | InvalidOperator =>
      exists read c,
        unread = read ++ c :: remains /\ operator_of c = None /\
        c <> "("%char /\ isdigit c = false /\ iswspace c = false
  | InvalidCharacter =>
      exists read c,
        unread = read ++ c :: remains /\ c <> ")"%char /\
        iswspace c = false
  end.

(** What [execute] makes of an operator, given what it makes of the two
    operands: the left operand is evaluated first, and a crash there is
    final. *)
Definition combine (op : Op) (lhs rhs : behaviour) : behaviour :=
  match lhs with
  | Returns l =>
      match rhs with
      | Returns r =>
          match apply_op op l r with
          | inr v => Returns v
          | inl u => Crashes u
          end
      | Crashes u => Crashes u
      | Unfinished => Unfinished
      end
  | Crashes u => Crashes u
  | Unfinished => Unfinished
  end.

(** ** main.cpp: the state threaded through a benchmark

    The harness reads a program from a file, times a loop and prints; what
    is modelled here is the value it computes: the [run] method of the two
    test structs and the accumulation [state += test.run(state)] of
    [run_benchmark], in [uint64_t] arithmetic.  Files, clocks and output
    are left out. *)

(** [static_cast<uint64_t>] of an [int64_t], and [uint64_t] wrap-around. *)
Definition to_uint64 (z : Z) : Z := (z mod 2 ^ 64)%Z.

(** [TestParserWithExceptions::run]; [program] is the member read from the
    input file.  The argument [state] is not used. *)
Definition TestParserWithExceptions_run (program : string) (state : Z)
  : behaviour :=
  match E.execute program with
  | Returns result => Returns (to_uint64 result)
  | Crashes u => Crashes u
  | Unfinished => Unfinished
  end.

(** [TestParserWithResults::run]. *)
Definition TestParserWithResults_run (program : string) (state : Z)
  : behaviour :=
  match R.execute program with
  | Returns result => Returns (to_uint64 result)
  | Crashes u => Crashes u
  | Unfinished => Unfinished
  end.

(** The loop of [run_benchmark]:
    [for (size_t i = 0; i < iterations; ++i) state += test.run(state);]
    and its [return state]. *)
Fixpoint run_benchmark (test_run : Z -> behaviour) (state : Z)
  (iterations : nat) : behaviour :=
  match iterations with
  | O => Returns state
  | S iterations' =>
      match test_run state with
      | Returns result =>
          run_benchmark test_run (to_uint64 (state + result)) iterations'
      | Crashes u => Crashes u
      | Unfinished => Unfinished
      end
  end.

(** ** Well-formed states and the unread suffix *)

Lemma length_list_ascii_of_string (program : string) :
  List.length (list_ascii_of_string program) = String.length program.
Proof.
  induction program as [|c program IH]; simpl; [reflexivity|].
  now rewrite IH.
Qed.

Lemma list_ascii_of_string_app (a b : string) :
  list_ascii_of_string (a ++ b)%string =
  list_ascii_of_string a ++ list_ascii_of_string b.
Proof.
  induction a as [|c a IH]; simpl; [reflexivity|].
  now rewrite IH.
Qed.

Lemma wf_Parser_of (program : string) : wf (Parser_of program).
Proof. unfold wf, Parser_of; simpl. split; [lia | reflexivity]. Qed.

Lemma rest_Parser_of (program : string) :
  rest (Parser_of program) = list_ascii_of_string program.
Proof. reflexivity. Qed.

Lemma remaining_Parser_of (program : string) :
  remaining (Parser_of program) = String.length program.
Proof.
  unfold remaining, Parser_of; simpl.
  rewrite length_list_ascii_of_string. lia.
Qed.

Lemma length_rest (s : Parser) : wf s -> List.length (rest s) = remaining s.
Proof.
  intros [Hp He]. unfold rest, remaining.
  rewrite length_skipn. lia.
Qed.

Lemma skip_0 (s : Parser) : skip 0 s = s.
Proof. now destruct s. Qed.

Lemma skip_skip (n m : nat) (s : Parser) : skip n (skip m s) = skip (n + m) s.
Proof. unfold skip; simpl. f_equal. lia. Qed.

Lemma rest_skip (n : nat) (s : Parser) : rest (skip n s) = skipn n (rest s).
Proof.
  unfold rest, skip; simpl.
  now rewrite skipn_skipn.
Qed.

Lemma later_refl (s : Parser) : later s s.
Proof. unfold later. auto. Qed.

Lemma later_trans (s1 s2 s3 : Parser) :
  later s1 s2 -> later s2 s3 -> later s1 s3.
Proof.
  unfold later. intros (Hd & He & Hp) (Hd' & He' & Hp').
  repeat split; [congruence | congruence | lia].
Qed.

Lemma later_remaining (s s' : Parser) :
  later s s' -> remaining s' <= remaining s.
Proof. unfold later, remaining. intros (_ & He & Hp). rewrite He. lia. Qed.

(** At the end of the text there is nothing left, before it there is a
    current character and a well-formed next state. *)
Lemma rest_nil_iff (s : Parser) : wf s -> (rest s = [] <-> p s = end_ s).
Proof.
  intros [Hp He]. unfold rest. split; intros H.
  - apply (f_equal (@List.length ascii)) in H.
    rewrite length_skipn in H. simpl in H. lia.
  - apply skipn_all2. lia.
Qed.

Lemma rest_cons (s : Parser) (c : ascii) (l : list ascii) :
  wf s -> rest s = c :: l ->
  p s <> end_ s /\ nth_error (data s) (p s) = Some c /\
  rest (skip 1 s) = l /\ wf (skip 1 s).
Proof.
  intros Hwf Hr.
  assert (Hne : p s <> end_ s).
  { intros Heq. apply (rest_nil_iff s Hwf) in Heq. congruence. }
  destruct Hwf as [Hp He].
  repeat split.
  - exact Hne.
  - unfold rest in Hr.
    rewrite <- (firstn_skipn (p s) (data s)) at 1. rewrite Hr.
    rewrite nth_error_app2; rewrite length_firstn; [|lia].
    replace (p s - Nat.min (p s) (List.length (data s))) with 0 by lia.
    reflexivity.
  - rewrite rest_skip, Hr. reflexivity.
  - simpl. lia.
  - simpl. exact He.
Qed.

Lemma wf_skip (n : nat) (s : Parser) :
  wf s -> n <= remaining s -> wf (skip n s).
Proof. unfold wf, remaining, skip; simpl. lia. Qed.

Lemma later_skip (n : nat) (s : Parser) : later s (skip n s).
Proof. unfold later, skip; simpl. repeat split. lia. Qed.

Lemma remaining_skip (n : nat) (s : Parser) :
  remaining (skip n s) = remaining s - n.
Proof. unfold remaining, skip; simpl. lia. Qed.

(** ** The two primitives, in both parsers *)

Lemma R_peek_eq (s : Parser) :
  wf s -> R.peek s = Done (hd zero (rest s)) s.
Proof.
  intros Hwf. unfold R.peek, bind, at_end, ret, deref.
  destruct (rest s) as [|c l] eqn:Hr.
  - apply (rest_nil_iff s Hwf) in Hr. rewrite Hr, Nat.eqb_refl. reflexivity.
  - destruct (rest_cons s c l Hwf Hr) as (Hne & Hn & _).
    apply Nat.eqb_neq in Hne. rewrite Hne, Hn. reflexivity.
Qed.

Lemma R_get_char_nil (s : Parser) :
  wf s -> rest s = [] -> R.get_char s = Done (R.Err UnexpectedEOF) s.
Proof.
  intros Hwf Hr. unfold R.get_char, bind, at_end, ret.
  apply (rest_nil_iff s Hwf) in Hr. rewrite Hr, Nat.eqb_refl. reflexivity.
Qed.

Lemma R_get_char_cons (s : Parser) (c : ascii) (l : list ascii) :
  wf s -> rest s = c :: l -> R.get_char s = Done (R.Ok c) (skip 1 s).
Proof.
  intros Hwf Hr. unfold R.get_char, bind, at_end, ret, deref, incr.
  destruct (rest_cons s c l Hwf Hr) as (Hne & Hn & _).
  apply Nat.eqb_neq in Hne. rewrite Hne, Hn. reflexivity.
Qed.

Lemma E_peek_eq (s : Parser) :
  wf s -> E.peek s = Done (E.Normal (hd zero (rest s))) s.
Proof.
  intros Hwf. unfold E.peek, E.bindX, E.lift, E.retX, bind, at_end, ret, deref.
  destruct (rest s) as [|c l] eqn:Hr.
  - apply (rest_nil_iff s Hwf) in Hr. rewrite Hr, Nat.eqb_refl. reflexivity.
  - destruct (rest_cons s c l Hwf Hr) as (Hne & Hn & _).
    apply Nat.eqb_neq in Hne. rewrite Hne, Hn. reflexivity.
Qed.

Lemma E_get_char_nil (s : Parser) :
  wf s -> rest s = [] ->
  E.get_char s = Done (E.Thrown (E.mkError UnexpectedEOF)) s.
Proof.
  intros Hwf Hr. unfold E.get_char, E.bindX, E.lift, E.throw, bind, at_end, ret.
  apply (rest_nil_iff s Hwf) in Hr. rewrite Hr, Nat.eqb_refl. reflexivity.
Qed.

Lemma E_get_char_cons (s : Parser) (c : ascii) (l : list ascii) :
  wf s -> rest s = c :: l -> E.get_char s = Done (E.Normal c) (skip 1 s).
Proof.
  intros Hwf Hr.
  unfold E.get_char, E.bindX, E.lift, E.retX, bind, at_end, ret, deref, incr.
  destruct (rest_cons s c l Hwf Hr) as (Hne & Hn & _).
  apply Nat.eqb_neq in Hne. rewrite Hne, Hn. reflexivity.
Qed.

(** What [peek] returned decides what [get_char] does next, in any state:
    at the end [peek] gave the sentinel and [get_char] fails, otherwise both
    read the same character. *)
Lemma peek_then_get_char (s s' : Parser) (c : ascii) :
  R.peek s = Done c s' ->
  s' = s /\
  ((c = zero /\ p s = end_ s /\
    R.get_char s = Done (R.Err UnexpectedEOF) s /\
    E.get_char s = Done (E.Thrown (E.mkError UnexpectedEOF)) s) \/
   (p s <> end_ s /\
    R.get_char s = Done (R.Ok c) (skip 1 s) /\
    E.get_char s = Done (E.Normal c) (skip 1 s))).
Proof.
  unfold R.peek, R.get_char, E.get_char, E.bindX, E.lift, E.retX, E.throw,
    bind, at_end, ret, deref, incr.
  destruct (p s =? end_ s) eqn:He.
  - intros H. injection H as <- <-. split; [reflexivity|]. left.
    apply Nat.eqb_eq in He. auto.
  - destruct (nth_error (data s) (p s)) as [c'|]; [|discriminate].
    intros H. injection H as <- <-. split; [reflexivity|]. right.
    apply Nat.eqb_neq in He. auto.
Qed.

(** ** The two parsers agree, operation by operation *)

Lemma bind_eq {A B} (m : M A) (k : A -> M B) (s : Parser) :
  bind m k s =
  match m s with
  | Done a s' => k a s'
  | Undef u => Undef u
  | OutOfFuel => OutOfFuel
  end.
Proof. reflexivity. Qed.

Lemma bindX_eq {A B} (m : E.X A) (k : A -> E.X B) (s : Parser) :
  E.bindX m k s =
  match m s with
  | Done (E.Normal a) s' => k a s'
  | Done (E.Thrown e) s' => Done (E.Thrown e) s'
  | Undef u => Undef u
  | OutOfFuel => OutOfFuel
  end.
Proof.
  unfold E.bindX, bind. destruct (m s) as [[a|e] s'|u|]; reflexivity.
Qed.

Lemma get_char_agree (s : Parser) : R.get_char s = reify (E.get_char s).
Proof.
  unfold R.get_char, E.get_char, E.bindX, E.lift, E.retX, E.throw,
    bind, at_end, ret, deref, incr.
  destruct (p s =? end_ s); [reflexivity|].
  destruct (nth_error (data s) (p s)); reflexivity.
Qed.

Lemma peek_agree (s : Parser) : E.peek s = normally (R.peek s).
Proof.
  unfold R.peek, E.peek, E.bindX, E.lift, E.retX, bind, at_end, ret, deref.
  destruct (p s =? end_ s); [reflexivity|].
  destruct (nth_error (data s) (p s)); reflexivity.
Qed.

Lemma iswspace_zero : iswspace zero = false.
Proof. reflexivity. Qed.

Lemma isdigit_zero : isdigit zero = false.
Proof. reflexivity. Qed.

Lemma skip_whitespace_agree (fuel : nat) (s : Parser) :
  E.skip_whitespace fuel s = normally (R.skip_whitespace fuel s).
Proof.
  revert s. induction fuel as [|fuel IH]; intros s; [reflexivity|].
  simpl. rewrite bind_eq, bindX_eq, peek_agree.
  destruct (R.peek s) as [c s'|u|] eqn:Hpeek; simpl; try reflexivity.
  destruct (iswspace c) eqn:Hc; [|reflexivity].
  destruct (peek_then_get_char _ _ _ Hpeek) as (-> & [(-> & _)|(_ & HR & HE)]).
  - rewrite iswspace_zero in Hc. discriminate.
  - rewrite bind_eq, bindX_eq, HR, HE. apply IH.
Qed.

Lemma expect_char_agree (c : ascii) (s : Parser) :
  R.expect_char c s =
  match E.expect_char c s with
  | Done (E.Normal _) s' => Done (R.Ok c) s'
  | Done (E.Thrown e) s' => Done (R.Err (E.kind e)) s'
  | Undef u => Undef u
  | OutOfFuel => OutOfFuel
  end.
Proof.
  unfold R.expect_char, E.expect_char.
  rewrite bind_eq, bindX_eq, get_char_agree.
  destruct (E.get_char s) as [[x|e] s'|u|]; simpl; try reflexivity.
  destruct (Ascii.eqb x c) eqn:Hx; simpl; [|reflexivity].
  apply Ascii.eqb_eq in Hx. subst x. reflexivity.
Qed.

Lemma number_loop_agree (fuel : nat) (result : int64) (s : Parser) :
  R.number_loop fuel result s = reify (E.number_loop fuel result s).
Proof.
  revert result s. induction fuel as [|fuel IH]; intros result s;
    [reflexivity|].
  simpl. rewrite bind_eq, bindX_eq, peek_agree.
  destruct (R.peek s) as [d s'|u|]; simpl; try reflexivity.
  destruct (isdigit d); [|reflexivity].
  rewrite bind_eq, bindX_eq, get_char_agree.
  destruct (E.get_char s') as [[c|e] s''|u|]; simpl; try reflexivity.
  apply IH.
Qed.

Lemma number_agree (fuel : nat) (s : Parser) :
  R.number fuel s = reify (E.number fuel s).
Proof. apply number_loop_agree. Qed.

Lemma operation_agree (s : Parser) : R.operation s = reify (E.operation s).
Proof.
  unfold R.operation, E.operation.
  rewrite bind_eq, bindX_eq, get_char_agree.
  destruct (E.get_char s) as [[c|e] s'|u|]; simpl; try reflexivity.
  unfold E.retX, E.throw, ret.
  repeat (match goal with
          | |- context [Ascii.eqb c ?x] => destruct (Ascii.eqb c x)
          end; try reflexivity).
Qed.

Section Agreement.

Variable expressionR : M (R.Result int64).
Variable expressionE : E.X int64.
Hypothesis expression_agree :
  forall s, expressionR s = reify (expressionE s).

Lemma inner_expression_agree (s : Parser) :
  R.inner_expression expressionR s =
  reify (E.inner_expression expressionE s).
Proof.
  unfold R.inner_expression, E.inner_expression.
  rewrite bind_eq, bindX_eq, operation_agree.
  destruct (E.operation s) as [[op|e] s1|u|]; simpl; try reflexivity.
  rewrite bind_eq, bindX_eq, expression_agree.
  destruct (expressionE s1) as [[l|e] s2|u|]; simpl; try reflexivity.
  rewrite bind_eq, bindX_eq, expression_agree.
  destruct (expressionE s2) as [[r|e] s3|u|]; simpl; try reflexivity.
  destruct (apply_op op l r); reflexivity.
Qed.

Lemma expression_body_agree (fuel : nat) (s : Parser) :
  R.expression_body fuel expressionR s =
  reify (E.expression_body fuel expressionE s).
Proof.
  unfold R.expression_body, E.expression_body.
  rewrite bind_eq, bindX_eq, skip_whitespace_agree.
  destruct (R.skip_whitespace fuel s) as [[] s1|u|]; simpl; try reflexivity.
  rewrite bind_eq, bindX_eq, peek_agree.
  destruct (R.peek s1) as [c s2|u|] eqn:Hpeek; simpl; try reflexivity.
  destruct (Ascii.eqb c "(") eqn:Hc.
  - apply Ascii.eqb_eq in Hc. subst c.
    destruct (peek_then_get_char _ _ _ Hpeek)
      as (-> & [(Hz & _)|(_ & HR & HE)]); [discriminate Hz|].
    rewrite bind_eq, bindX_eq, HR, HE.
    rewrite bind_eq, bindX_eq, skip_whitespace_agree.
    destruct (R.skip_whitespace fuel (skip 1 s1)) as [[] s4|u|]; simpl;
      try reflexivity.
    rewrite bind_eq, bindX_eq, expression_agree.
    destruct (expressionE s4) as [[val|e] s5|u|]; simpl; try reflexivity.
    rewrite bind_eq, bindX_eq, skip_whitespace_agree.
    destruct (R.skip_whitespace fuel s5) as [[] s6|u|]; simpl;
      try reflexivity.
    rewrite bind_eq, bindX_eq, expect_char_agree.
    destruct (E.expect_char ")" s6) as [[[]|e] s7|u|]; reflexivity.
  - destruct ((code "0" <=? code c) && (code c <=? code "9"))%Z.
    + apply number_agree.
    + apply inner_expression_agree.
Qed.

End Agreement.

Lemma expression_agree (fuel : nat) (s : Parser) :
  R.expression fuel s = reify (E.expression fuel s).
Proof.
  revert s. induction fuel as [|fuel IH]; intros s; [reflexivity|].
  simpl. apply expression_body_agree. exact IH.
Qed.

Lemma classify_agree (program : string) :
  R.classify program = reify (E.classify program).
Proof. apply expression_agree. Qed.

Lemma execute_agree (program : string) :
  R.execute program = E.execute program.
Proof.
  unfold R.execute, E.execute. rewrite classify_agree.
  destruct (E.classify program) as [[v|e] s|u|]; reflexivity.
Qed.

(** ** The cursor invariant, rule by rule

    A small program logic for [preserves]: it holds of the three machine
    steps as the parsers use them and is closed under sequencing, so it
    holds of every operation built from them. *)

Create HintDb cursor.

Lemma preserves_ret {A} (a : A) : preserves (ret a).
Proof. intros s Hwf. unfold keeps_cursor, ret. split; [exact Hwf | apply later_refl]. Qed.

Lemma preserves_bind {A B} (m : M A) (k : A -> M B) :
  preserves m -> (forall a, preserves (k a)) -> preserves (bind m k).
Proof.
  intros Hm Hk s Hwf. specialize (Hm s Hwf).
  unfold keeps_cursor in *. rewrite bind_eq.
  destruct (m s) as [a s1|u|]; [|exact Hm|exact I].
  destruct Hm as [Hwf1 Hl1]. specialize (Hk a s1 Hwf1).
  unfold keeps_cursor in Hk.
  destruct (k a s1) as [b s2|u|]; [|exact Hk|exact I].
  destruct Hk as [Hwf2 Hl2]. split; [exact Hwf2|].
  eapply later_trans; eassumption.
Qed.

Lemma preserves_bindX {A B} (m : E.X A) (k : A -> E.X B) :
  preserves m -> (forall a, preserves (k a)) -> preserves (E.bindX m k).
Proof.
  intros Hm Hk. unfold E.bindX. apply preserves_bind; [exact Hm|].
  intros [a|e]; [apply Hk | apply preserves_ret].
Qed.

Lemma preserves_retX {A} (a : A) : preserves (E.retX a).
Proof. apply preserves_ret. Qed.

Lemma preserves_throw {A} (e : E.Error) : preserves (@E.throw A e).
Proof. apply preserves_ret. Qed.

Lemma preserves_out_of_fuel {A} : preserves (fun _ => @OutOfFuel A).
Proof. intros s _. exact I. Qed.

Lemma preserves_apply_op {A} (f : int64 -> M A) (op : Op) (l r : int64) :
  (forall v, preserves (f v)) ->
  preserves (match apply_op op l r with
             | inl u => fun _ => Undef u
             | inr v => f v
             end).
Proof.
  intros Hf. destruct (apply_op op l r) as [u|v] eqn:Hop; [|apply Hf].
  intros s _. unfold keeps_cursor. intros ->.
  destruct op; simpl in Hop; try discriminate.
  destruct (r =? 0)%Z; [discriminate|].
  destruct ((l =? INT64_MIN) && (r =? -1))%Z; discriminate.
Qed.

Lemma preserves_R_peek : preserves R.peek.
Proof.
  intros s Hwf. unfold keeps_cursor. rewrite R_peek_eq by exact Hwf.
  split; [exact Hwf | apply later_refl].
Qed.

Lemma preserves_R_get_char : preserves R.get_char.
Proof.
  intros s Hwf. unfold keeps_cursor.
  destruct (rest s) as [|c l] eqn:Hr.
  - rewrite R_get_char_nil by assumption.
    split; [exact Hwf | apply later_refl].
  - rewrite (R_get_char_cons s c l) by assumption.
    split; [apply (rest_cons s c l Hwf Hr) | apply later_skip].
Qed.

Lemma preserves_reified {A} (m : M (R.Result A)) (x : E.X A) :
  (forall s, m s = reify (x s)) -> preserves m -> preserves x.
Proof.
  intros Hmx Hm s Hwf. specialize (Hm s Hwf).
  unfold keeps_cursor in *. rewrite Hmx in Hm.
  destruct (x s) as [c s'|u|]; exact Hm.
Qed.

Lemma preserves_E_peek : preserves E.peek.
Proof.
  intros s Hwf. unfold keeps_cursor. rewrite E_peek_eq by exact Hwf.
  split; [exact Hwf | apply later_refl].
Qed.

Lemma preserves_E_get_char : preserves E.get_char.
Proof. exact (preserves_reified _ _ get_char_agree preserves_R_get_char). Qed.

#[export] Hint Resolve preserves_ret preserves_retX preserves_throw
  preserves_out_of_fuel preserves_R_peek
  preserves_R_get_char preserves_E_peek preserves_E_get_char : cursor.

(** Split a goal along the control flow of the code. *)
Ltac cursor :=
  repeat first
    [ progress auto with cursor
    | apply preserves_bindX; [|intros ?]
    | apply preserves_bind; [|intros ?]
    | apply preserves_apply_op; intros ?
    | match goal with
      | |- preserves (if ?b then _ else _) => destruct b
      | |- preserves (match ?r with R.Ok _ => _ | R.Err _ => _ end) =>
          destruct r
      end ].

Lemma preserves_R_skip_whitespace (fuel : nat) :
  preserves (R.skip_whitespace fuel).
Proof. induction fuel as [|fuel IH]; simpl; cursor. Qed.

Lemma preserves_R_expect_char (c : ascii) : preserves (R.expect_char c).
Proof. unfold R.expect_char. cursor. Qed.

Lemma preserves_R_number_loop (fuel : nat) (result : int64) :
  preserves (R.number_loop fuel result).
Proof. revert result. induction fuel as [|fuel IH]; intros result; simpl; cursor. Qed.

Lemma preserves_R_number (fuel : nat) : preserves (R.number fuel).
Proof. apply preserves_R_number_loop. Qed.

Lemma preserves_R_operation : preserves R.operation.
Proof. unfold R.operation. cursor. Qed.

#[export] Hint Resolve preserves_R_skip_whitespace preserves_R_expect_char
  preserves_R_number preserves_R_operation : cursor.

Lemma preserves_R_inner_expression (expression : M (R.Result int64)) :
  preserves expression -> preserves (R.inner_expression expression).
Proof. intros He. unfold R.inner_expression. cursor. Qed.

Lemma preserves_R_expression_body (fuel : nat)
  (expression : M (R.Result int64)) :
  preserves expression -> preserves (R.expression_body fuel expression).
Proof.
  intros He. unfold R.expression_body. cursor.
Qed.

Lemma preserves_R_expression (fuel : nat) : preserves (R.expression fuel).
Proof.
  induction fuel as [|fuel IH]; simpl; [cursor|].
  apply preserves_R_expression_body, IH.
Qed.

Lemma preserves_E_skip_whitespace (fuel : nat) :
  preserves (E.skip_whitespace fuel).
Proof. induction fuel as [|fuel IH]; simpl; cursor. Qed.

Lemma preserves_E_expect_char (c : ascii) : preserves (E.expect_char c).
Proof. unfold E.expect_char. cursor. Qed.

Lemma preserves_E_number (fuel : nat) : preserves (E.number fuel).
Proof.
  exact (preserves_reified _ _ (number_agree fuel) (preserves_R_number fuel)).
Qed.

Lemma preserves_E_operation : preserves E.operation.
Proof. exact (preserves_reified _ _ operation_agree preserves_R_operation). Qed.

#[export] Hint Resolve preserves_E_skip_whitespace preserves_E_expect_char
  preserves_E_number preserves_E_operation : cursor.

Lemma preserves_E_inner_expression (expression : E.X int64) :
  preserves expression -> preserves (E.inner_expression expression).
Proof. intros He. unfold E.inner_expression. cursor. Qed.

Lemma preserves_E_expression_body (fuel : nat) (expression : E.X int64) :
  preserves expression -> preserves (E.expression_body fuel expression).
Proof.
  intros He. unfold E.expression_body. cursor.
Qed.

Lemma preserves_E_expression (fuel : nat) : preserves (E.expression fuel).
Proof.
  induction fuel as [|fuel IH]; simpl; [cursor|].
  apply preserves_E_expression_body, IH.
Qed.

(** ** What each operation computes from a well-formed state *)

Lemma skip_S (n : nat) (s : Parser) : skip n (skip 1 s) = skip (S n) s.
Proof. rewrite skip_skip. f_equal. lia. Qed.

Lemma remaining_pos (s : Parser) (c : ascii) (l : list ascii) :
  wf s -> rest s = c :: l -> remaining s = S (List.length l).
Proof.
  intros Hwf Hr. rewrite <- (length_rest s Hwf), Hr. reflexivity.
Qed.

Lemma R_skip_whitespace_eq (fuel : nat) (s : Parser) :
  wf s -> remaining s < fuel ->
  R.skip_whitespace fuel s =
  Done tt (skip (List.length (ws_run (rest s))) s).
Proof.
  revert s. induction fuel as [|fuel IH]; intros s Hwf Hfuel; [lia|].
  cbn [R.skip_whitespace]. rewrite bind_eq, R_peek_eq by exact Hwf.
  destruct (rest s) as [|c l] eqn:Hr; cbn [hd ws_run List.length].
  - rewrite iswspace_zero, skip_0. reflexivity.
  - destruct (iswspace c); cbn [List.length]; [|now rewrite skip_0].
    rewrite bind_eq, (R_get_char_cons s c l) by assumption.
    destruct (rest_cons s c l Hwf Hr) as (_ & _ & Hr1 & Hwf1).
    rewrite IH; [|exact Hwf1|].
    + rewrite Hr1, skip_S. reflexivity.
    + rewrite remaining_skip.
      pose proof (remaining_pos s c l Hwf Hr). lia.
Qed.

Lemma R_number_loop_eq (fuel : nat) (result : int64) (s : Parser) :
  wf s -> remaining s < fuel ->
  R.number_loop fuel result s =
  Done (R.Ok (fold_left number_step (digit_run (rest s)) result))
       (skip (List.length (digit_run (rest s))) s).
Proof.
  revert result s.
  induction fuel as [|fuel IH]; intros result s Hwf Hfuel; [lia|].
  cbn [R.number_loop]. rewrite bind_eq, R_peek_eq by exact Hwf.
  destruct (rest s) as [|c l] eqn:Hr; cbn [hd digit_run List.length].
  - rewrite isdigit_zero, skip_0. reflexivity.
  - destruct (isdigit c); cbn [List.length fold_left]; [|now rewrite skip_0].
    rewrite bind_eq, (R_get_char_cons s c l) by assumption.
    destruct (rest_cons s c l Hwf Hr) as (_ & _ & Hr1 & Hwf1).
    rewrite IH; [|exact Hwf1|].
    + rewrite Hr1, skip_S. reflexivity.
    + rewrite remaining_skip.
      pose proof (remaining_pos s c l Hwf Hr). lia.
Qed.

Lemma R_number_eq (fuel : nat) (s : Parser) :
  wf s -> remaining s < fuel ->
  R.number fuel s =
  Done (R.Ok (fold_left number_step (digit_run (rest s)) 0%Z))
       (skip (List.length (digit_run (rest s))) s).
Proof. apply R_number_loop_eq. Qed.

Lemma R_operation_eq (s : Parser) :
  wf s ->
  R.operation s =
  match rest s with
  | [] => Done (R.Err UnexpectedEOF) s
  | c :: _ =>
      match operator_of c with
      | Some op => Done (R.Ok op) (skip 1 s)
      | None => Done (R.Err InvalidOperator) (skip 1 s)
      end
  end.
Proof.
  intros Hwf. unfold R.operation. rewrite bind_eq.
  destruct (rest s) as [|c l] eqn:Hr.
  - rewrite R_get_char_nil by assumption. reflexivity.
  - rewrite (R_get_char_cons s c l) by assumption.
    unfold operator_of, ret.
    repeat (match goal with
            | |- context [Ascii.eqb c ?x] => destruct (Ascii.eqb c x)
            end; try reflexivity).
Qed.

Lemma R_expect_char_eq (c : ascii) (s : Parser) :
  wf s ->
  R.expect_char c s =
  match rest s with
  | [] => Done (R.Err UnexpectedEOF) s
  | x :: _ =>
      if Ascii.eqb x c then Done (R.Ok x) (skip 1 s)
      else Done (R.Err InvalidCharacter) (skip 1 s)
  end.
Proof.
  intros Hwf. unfold R.expect_char. rewrite bind_eq.
  destruct (rest s) as [|x l] eqn:Hr.
  - rewrite R_get_char_nil by assumption. reflexivity.
  - rewrite (R_get_char_cons s x l) by assumption.
    destruct (Ascii.eqb x c); reflexivity.
Qed.

(** The maximal runs are prefixes of the text. *)
Lemma length_ws_run (l : list ascii) :
  List.length (ws_run l) <= List.length l.
Proof.
  induction l as [|c l IH]; simpl; [lia|].
  destruct (iswspace c); simpl; lia.
Qed.

Lemma length_digit_run (l : list ascii) :
  List.length (digit_run l) <= List.length l.
Proof.
  induction l as [|c l IH]; simpl; [lia|].
  destruct (isdigit c); simpl; lia.
Qed.

Lemma wf_after_ws (s : Parser) :
  wf s -> wf (skip (List.length (ws_run (rest s))) s).
Proof.
  intros Hwf. apply wf_skip; [exact Hwf|].
  rewrite <- (length_rest s Hwf). apply length_ws_run.
Qed.

Lemma preserves_done {A} (m : M A) (s s' : Parser) (a : A) :
  preserves m -> wf s -> m s = Done a s' -> wf s' /\ later s s'.
Proof.
  intros Hm Hwf Hs. specialize (Hm s Hwf).
  unfold keeps_cursor in Hm. now rewrite Hs in Hm.
Qed.

Lemma range_is_isdigit (c : ascii) :
  ((code "0" <=? code c) && (code c <=? code "9"))%Z = isdigit c.
Proof. reflexivity. Qed.

Lemma isdigit_not_paren (c : ascii) :
  Ascii.eqb c "(" = true -> isdigit c = false.
Proof. intros H. apply Ascii.eqb_eq in H. now subst c. Qed.

(** One run of the body of [expression], read off the unread suffix: skip
    the whitespace, then dispatch on the first character.  [rec] is the
    recursive entry point; it only has to respect the cursor from states
    with less to read. *)
Lemma R_expression_body_unfold (fuel : nat) (rec : M (R.Result int64))
  (s : Parser) :
  wf s -> remaining s < fuel ->
  (forall s', wf s' -> remaining s' < remaining s -> keeps_cursor rec s') ->
  R.expression_body fuel rec s = dispatch rec s.
Proof.
  intros Hwf Hfuel Hrec. unfold R.expression_body, dispatch.
  rewrite bind_eq, R_skip_whitespace_eq by assumption.
  pose proof (wf_after_ws s Hwf) as Hwf1.
  pose proof (later_remaining _ _ (later_skip (List.length (ws_run (rest s))) s))
    as Hrem1.
  set (s1 := skip (List.length (ws_run (rest s))) s) in *.
  cbv zeta. rewrite bind_eq, R_peek_eq by exact Hwf1.
  destruct (rest s1) as [|c l] eqn:Hr1; cbn [hd].
  - (* end of input: the operator is missing *)
    change (Ascii.eqb zero "(") with false. cbv iota.
    change ((code "0" <=? code zero) && (code zero <=? code "9"))%Z with false.
    cbv iota. unfold R.inner_expression.
    rewrite bind_eq, R_operation_eq, Hr1 by exact Hwf1. reflexivity.
  - destruct (rest_cons s1 c l Hwf1 Hr1) as (_ & _ & Hr2 & Hwf2).
    pose proof (remaining_pos s1 c l Hwf1 Hr1) as Hrem.
    destruct (Ascii.eqb c "(") eqn:Hparen.
    + rewrite bind_eq, (R_get_char_cons s1 c l) by assumption.
      rewrite bind_eq, R_skip_whitespace_eq; [|exact Hwf2|].
      2:{ rewrite remaining_skip. lia. }
      rewrite Hr2, bind_eq.
      assert (Hwf3 : wf (skip (List.length (ws_run l)) (skip 1 s1))).
      { rewrite <- Hr2. apply wf_after_ws, Hwf2. }
      specialize (Hrec _ Hwf3). unfold keeps_cursor in Hrec.
      rewrite !remaining_skip in Hrec. specialize (Hrec ltac:(lia)).
      destruct (rec (skip (List.length (ws_run l)) (skip 1 s1)))
        as [[v|k] s3|u|] eqn:Hinner; try reflexivity.
      destruct Hrec as [Hwf4 Hl4].
      apply later_remaining in Hl4. rewrite !remaining_skip in Hl4.
      rewrite bind_eq, R_skip_whitespace_eq; [|exact Hwf4|lia].
      rewrite bind_eq, R_expect_char_eq by apply wf_after_ws, Hwf4.
      destruct (rest (skip (List.length (ws_run (rest s3))) s3)) as [|x l'];
        [reflexivity|].
      destruct (Ascii.eqb x ")"); reflexivity.
    + rewrite range_is_isdigit.
      destruct (isdigit c) eqn:Hdigit.
      * rewrite R_number_eq, Hr1; [reflexivity|exact Hwf1|lia].
      * unfold R.inner_expression.
        rewrite bind_eq, R_operation_eq, Hr1 by exact Hwf1.
        destruct (operator_of c) as [op|]; [|reflexivity].
        rewrite bind_eq.
        destruct (rec (skip 1 s1)) as [[a|k] s3|u|]; try reflexivity.
        rewrite bind_eq.
        destruct (rec s3) as [[b|k] s4|u|]; try reflexivity.
        destruct (apply_op op a b); reflexivity.
Qed.

Lemma R_expression_unfold (fuel : nat) (s : Parser) :
  wf s -> remaining s < S fuel ->
  R.expression (S fuel) s = dispatch (R.expression fuel) s.
Proof.
  intros Hwf Hfuel. cbn [R.expression].
  apply R_expression_body_unfold; [exact Hwf|exact Hfuel|].
  intros s' Hwf' _. apply preserves_R_expression, Hwf'.
Qed.

(** ** Termination *)

(** The recursive calls of one unfolding start from states with strictly
    less to read. *)
Lemma remaining_inner (s : Parser) (c : ascii) (l : list ascii) (n : nat) :
  let s1 := skip (List.length (ws_run (rest s))) s in
  wf s -> rest s1 = c :: l ->
  wf (skip n (skip 1 s1)) \/ List.length l < n ->
  remaining (skip n (skip 1 s1)) < remaining s.
Proof.
  intros s1 Hwf Hr1 _.
  pose proof (remaining_pos s1 c l (wf_after_ws s Hwf) Hr1) as Hrem.
  pose proof (later_remaining _ _ (later_skip (List.length (ws_run (rest s))) s)).
  fold s1 in H. rewrite !remaining_skip. lia.
Qed.

Lemma R_expression_finishes (fuel : nat) (s : Parser) :
  wf s -> remaining s < fuel -> finishes (R.expression fuel) s.
Proof.
  unfold finishes. revert s.
  induction fuel as [|fuel IH]; intros s Hwf Hfuel; [lia|].
  rewrite R_expression_unfold by assumption. unfold dispatch. cbv zeta.
  pose proof (wf_after_ws s Hwf) as Hwf1.
  destruct (rest (skip (List.length (ws_run (rest s))) s)) as [|c l] eqn:Hr1;
    [discriminate|].
  destruct (rest_cons _ c l Hwf1 Hr1) as (_ & _ & Hr2 & Hwf2).
  destruct (Ascii.eqb c "(").
  - assert (Hwf3 : wf (skip (List.length (ws_run l))
                         (skip 1 (skip (List.length (ws_run (rest s))) s)))).
    { rewrite <- Hr2. apply wf_after_ws, Hwf2. }
    pose proof (remaining_inner s c l (List.length (ws_run l)) Hwf Hr1
                  (or_introl Hwf3)) as Hlt.
    specialize (IH _ Hwf3 ltac:(lia)).
    destruct (R.expression fuel _) as [[v|k] s3|u|]; try discriminate;
      [|contradiction].
    destruct (rest (skip _ s3)) as [|x l']; [discriminate|].
    destruct (Ascii.eqb x ")"); discriminate.
  - destruct (isdigit c); [discriminate|].
    destruct (operator_of c) as [op|]; [|discriminate].
    pose proof (remaining_inner s c l 0 Hwf Hr1) as Hlt.
    rewrite skip_0 in Hlt. specialize (Hlt (or_introl Hwf2)).
    pose proof (IH _ Hwf2 ltac:(lia)) as IH1.
    destruct (R.expression fuel (skip 1 _)) as [[a|k] s3|u|] eqn:Hleft;
      try discriminate; [|contradiction].
    destruct (preserves_done _ _ _ _ (preserves_R_expression fuel) Hwf2 Hleft)
      as [Hwf3 Hl3].
    apply later_remaining in Hl3.
    pose proof (IH _ Hwf3 ltac:(lia)) as IH2.
    destruct (R.expression fuel s3) as [[b|k] s4|u|];
      try discriminate; [|contradiction].
    destruct (apply_op op a b); discriminate.
Qed.

(** Any two sufficient bounds give the same result. *)
Lemma R_expression_fuel (fuel fuel' : nat) (s : Parser) :
  wf s -> remaining s < fuel -> remaining s < fuel' ->
  R.expression fuel s = R.expression fuel' s.
Proof.
  revert fuel' s.
  induction fuel as [|fuel IH]; intros fuel' s Hwf Hfuel Hfuel'; [lia|].
  destruct fuel' as [|fuel']; [lia|].
  rewrite !R_expression_unfold by assumption. unfold dispatch. cbv zeta.
  pose proof (wf_after_ws s Hwf) as Hwf1.
  destruct (rest (skip (List.length (ws_run (rest s))) s)) as [|c l] eqn:Hr1;
    [reflexivity|].
  destruct (rest_cons _ c l Hwf1 Hr1) as (_ & _ & Hr2 & Hwf2).
  destruct (Ascii.eqb c "(").
  - assert (Hwf3 : wf (skip (List.length (ws_run l))
                         (skip 1 (skip (List.length (ws_run (rest s))) s)))).
    { rewrite <- Hr2. apply wf_after_ws, Hwf2. }
    pose proof (remaining_inner s c l (List.length (ws_run l)) Hwf Hr1
                  (or_introl Hwf3)) as Hlt.
    rewrite (IH fuel') by (assumption || lia). reflexivity.
  - destruct (isdigit c); [reflexivity|].
    destruct (operator_of c) as [op|]; [|reflexivity].
    pose proof (remaining_inner s c l 0 Hwf Hr1) as Hlt.
    rewrite skip_0 in Hlt. specialize (Hlt (or_introl Hwf2)).
    rewrite (IH fuel') by (assumption || lia).
    destruct (R.expression fuel' (skip 1 _)) as [[a|k] s3|u|] eqn:Hleft;
      try reflexivity.
    destruct (preserves_done _ _ _ _ (preserves_R_expression fuel') Hwf2 Hleft)
      as [Hwf3 Hl3].
    apply later_remaining in Hl3.
    rewrite (IH fuel') by (assumption || lia). reflexivity.
Qed.

(** ** The parser against the grammar *)

Lemma isdigit_not_space (c : ascii) : isdigit c = true -> iswspace c = false.
Proof.
  unfold isdigit, iswspace. intros H.
  apply andb_true_iff in H. destruct H as [H1 H2].
  apply Z.leb_le in H1. apply Z.leb_le in H2.
  apply orb_false_iff. split.
  - apply Z.eqb_neq. lia.
  - apply andb_false_iff. right. apply Z.leb_gt. lia.
Qed.

Lemma op_char_facts (op : Op) :
  iswspace (op_char op) = false /\ isdigit (op_char op) = false /\
  Ascii.eqb (op_char op) "(" = false /\ operator_of (op_char op) = Some op.
Proof. destruct op; repeat split; reflexivity. Qed.

Lemma digit_run_app (digits follow : list ascii) :
  forallb isdigit digits = true -> starts_with_digit follow = false ->
  digit_run (digits ++ follow) = digits.
Proof.
  intros Hd Hf.
  induction digits as [|c digits IH]; cbn [app digit_run forallb] in *.
  - destruct follow as [|c l]; [reflexivity|].
    cbn [starts_with_digit digit_run] in *. now rewrite Hf.
  - apply andb_true_iff in Hd. destruct Hd as [Hc Hd].
    rewrite Hc, IH by exact Hd. reflexivity.
Qed.

Lemma ws_run_app (ws : list ascii) (c : ascii) (follow : list ascii) :
  forallb iswspace ws = true -> iswspace c = false ->
  ws_run (ws ++ c :: follow) = ws.
Proof.
  intros Hw Hc.
  induction ws as [|x ws IH]; cbn [app ws_run forallb] in *.
  - now rewrite Hc.
  - apply andb_true_iff in Hw. destruct Hw as [Hx Hw].
    rewrite Hx, IH by exact Hw. reflexivity.
Qed.

Lemma ws_run_after (l : list ascii) :
  ws_run (skipn (List.length (ws_run l)) l) = [].
Proof.
  induction l as [|c l IH]; [reflexivity|]. cbn [ws_run].
  destruct (iswspace c) eqn:Hc; cbn [List.length skipn ws_run]; [exact IH|].
  now rewrite Hc.
Qed.

(** Where a known prefix of the unread text ends. *)
Lemma skip_prefix (s : Parser) (pre post : list ascii) :
  wf s -> rest s = pre ++ post ->
  wf (skip (List.length pre) s) /\
  rest (skip (List.length pre) s) = post /\
  remaining s = List.length pre + List.length post.
Proof.
  intros Hwf Hr.
  assert (Hrem : remaining s = List.length pre + List.length post).
  { rewrite <- (length_rest s Hwf), Hr. apply length_app. }
  repeat split.
  - simpl. unfold remaining in Hrem. destruct Hwf. lia.
  - simpl. apply Hwf.
  - rewrite rest_skip, Hr, skipn_app, skipn_all, Nat.sub_diag. reflexivity.
  - exact Hrem.
Qed.

(** Skipping leading whitespace beforehand changes nothing: [expression]
    skips it itself. *)
Lemma R_expression_skip_ws (fuel : nat) (s : Parser) :
  wf s -> remaining s < fuel ->
  R.expression fuel (skip (List.length (ws_run (rest s))) s) =
  R.expression fuel s.
Proof.
  intros Hwf Hfuel. destruct fuel as [|fuel]; [lia|].
  pose proof (wf_after_ws s Hwf) as Hwf1.
  pose proof (later_remaining _ _ (later_skip (List.length (ws_run (rest s))) s))
    as Hrem1.
  rewrite (R_expression_unfold fuel s) by assumption.
  rewrite R_expression_unfold by (assumption || lia).
  unfold dispatch. cbv zeta.
  assert (Hz : ws_run (rest (skip (List.length (ws_run (rest s))) s)) = []).
  { rewrite rest_skip. apply ws_run_after. }
  rewrite Hz. cbn [List.length]. rewrite skip_0. reflexivity.
Qed.

Lemma R_expression_sound (text : list ascii) (e : expr) (follow : list ascii) :
  parses text e follow ->
  forall fuel s,
    wf s -> rest s = text ++ follow -> remaining s < fuel ->
    R.expression fuel s =
    match eval64 e with
    | inr v => Done (R.Ok v) (skip (List.length text) s)
    | inl u => Undef u
    end.
Proof.
  induction 1 as [c text e follow Hc _ IH
                 |digits follow Hne Hd Hf
                 |text e ws follow _ IH Hws
                 |op text1 e1 text2 e2 follow _ IH1 _ IH2];
    intros fuel s Hwf Hr Hfuel.
  - (* leading whitespace *)
    rewrite <- R_expression_skip_ws by assumption.
    cbn [app] in Hr.
    destruct (rest_cons s c _ Hwf Hr) as (_ & _ & Hr1 & Hwf1).
    pose proof (remaining_pos s _ _ Hwf Hr) as Hrem.
    rewrite Hr. cbn [ws_run]. rewrite Hc. cbn [List.length].
    rewrite <- skip_S, <- Hr1.
    rewrite R_expression_skip_ws;
      [|exact Hwf1|rewrite remaining_skip; lia].
    rewrite (IH fuel (skip 1 s)); [|exact Hwf1|exact Hr1|].
    + destruct (eval64 e); [reflexivity|]. now rewrite skip_S.
    + rewrite remaining_skip. lia.
  - (* a number *)
    destruct fuel as [|fuel]; [lia|].
    rewrite R_expression_unfold by assumption. unfold dispatch. cbv zeta.
    destruct digits as [|c digits]; [congruence|].
    cbn [forallb] in Hd. apply andb_true_iff in Hd. destruct Hd as [Hc Hd].
    rewrite Hr. cbn [app ws_run]. rewrite (isdigit_not_space c Hc).
    cbn [List.length]. rewrite skip_0, Hr. cbn [app].
    destruct (Ascii.eqb c "(") eqn:Hp.
    { apply isdigit_not_paren in Hp. congruence. }
    rewrite Hc.
    change (c :: digits ++ follow) with ((c :: digits) ++ follow).
    rewrite digit_run_app; [reflexivity| |exact Hf].
    cbn [forallb]. now rewrite Hc, Hd.
  - (* a parenthesised expression *)
    destruct fuel as [|fuel]; [lia|].
    rewrite R_expression_unfold by assumption. unfold dispatch. cbv zeta.
    cbn [app] in Hr. rewrite <- !app_assoc in Hr. cbn [app] in Hr.
    destruct (rest_cons s _ _ Hwf Hr) as (_ & _ & Hr1 & Hwf1).
    pose proof (remaining_pos s _ _ Hwf Hr) as Hrem.
    rewrite Hr. cbn [ws_run]. change (iswspace "(") with false. cbv iota.
    cbn [List.length]. rewrite skip_0, Hr.
    change (Ascii.eqb "(" "(") with true. cbv iota.
    rewrite <- Hr1 at 1.
    rewrite R_expression_skip_ws; [|exact Hwf1|rewrite remaining_skip; lia].
    rewrite (IH fuel (skip 1 s)); [|exact Hwf1|exact Hr1|].
    2:{ rewrite remaining_skip. lia. }
    cbn [eval64].
    destruct (eval64 e) as [u|v]; [reflexivity|].
    destruct (skip_prefix _ _ _ Hwf1 Hr1) as (Hwf3 & Hr3 & _).
    rewrite Hr3. rewrite ws_run_app by (exact Hws || reflexivity).
    destruct (skip_prefix _ _ _ Hwf3 Hr3) as (_ & Hr4 & _).
    rewrite Hr4. change (Ascii.eqb ")" ")") with true. cbv iota.
    rewrite !skip_skip. do 2 f_equal.
    cbn [List.length]. rewrite !length_app. simpl. lia.
  - (* an operator and its two operands *)
    destruct fuel as [|fuel]; [lia|].
    rewrite R_expression_unfold by assumption. unfold dispatch. cbv zeta.
    destruct (op_char_facts op) as (Hnw & Hnd & Hnp & Hop).
    cbn [app] in Hr. rewrite <- app_assoc in Hr.
    destruct (rest_cons s _ _ Hwf Hr) as (_ & _ & Hr1 & Hwf1).
    pose proof (remaining_pos s _ _ Hwf Hr) as Hrem.
    rewrite Hr. cbn [ws_run]. rewrite Hnw.
    cbn [List.length]. rewrite skip_0, Hr.
    rewrite Hnp, Hnd, Hop.
    rewrite (IH1 fuel (skip 1 s)); [|exact Hwf1|exact Hr1|].
    2:{ rewrite remaining_skip. lia. }
    cbn [eval64].
    destruct (eval64 e1) as [u|a]; [reflexivity|].
    destruct (skip_prefix _ _ _ Hwf1 Hr1) as (Hwf3 & Hr3 & Hrem3).
    rewrite (IH2 fuel _ Hwf3 Hr3).
    2:{ rewrite !remaining_skip. lia. }
    destruct (eval64 e2) as [u|b]; [reflexivity|].
    destruct (apply_op op a b); [reflexivity|].
    rewrite !skip_skip. do 2 f_equal.
    cbn [List.length]. rewrite !length_app. lia.
Qed.

(** ** 64-bit arithmetic *)

Lemma wrap64_range (z : Z) : in_int64 (wrap64 z).
Proof.
  unfold in_int64, wrap64, INT64_MIN, INT64_MAX.
  pose proof (Z.mod_pos_bound (z + 2 ^ 63) (2 ^ 64) ltac:(lia)). lia.
Qed.

Lemma wrap64_small (z : Z) : in_int64 z -> wrap64 z = z.
Proof.
  unfold in_int64, wrap64, INT64_MIN, INT64_MAX. intros H.
  rewrite Z.mod_small by lia. lia.
Qed.

Lemma wrap64_shift (z k : Z) : wrap64 (z + k * 2 ^ 64) = wrap64 z.
Proof.
  unfold wrap64.
  replace (z + k * 2 ^ 64 + 2 ^ 63)%Z with (z + 2 ^ 63 + k * 2 ^ 64)%Z by lia.
  now rewrite Z_mod_plus_full.
Qed.

Lemma wrap64_multiple (z : Z) : exists k, wrap64 z = (z + k * 2 ^ 64)%Z.
Proof.
  exists (- ((z + 2 ^ 63) / 2 ^ 64))%Z. unfold wrap64.
  rewrite Z.mod_eq by lia. lia.
Qed.

(** Wrapping after every step is wrapping once at the end. *)
Lemma number_step_wrap (acc : Z) (c : ascii) :
  number_step (wrap64 acc) c = wrap64 (acc * 10 + digit_value c).
Proof.
  unfold number_step, digit_value.
  destruct (wrap64_multiple acc) as [k ->].
  destruct (wrap64_multiple ((acc + k * 2 ^ 64) * 10)) as [k' ->].
  replace ((acc + k * 2 ^ 64) * 10 + k' * 2 ^ 64 + (code c - code "0"))%Z
    with (acc * 10 + (code c - code "0") + (k * 10 + k') * 2 ^ 64)%Z by lia.
  apply wrap64_shift.
Qed.

Lemma fold_number_step_wrap (digits : list ascii) (acc : Z) :
  fold_left number_step digits (wrap64 acc) =
  wrap64 (fold_left (fun a c => a * 10 + digit_value c)%Z digits acc).
Proof.
  revert acc. induction digits as [|c digits IH]; intros acc; [reflexivity|].
  cbn [fold_left]. rewrite number_step_wrap. apply IH.
Qed.

Lemma fold_number_step_decimal (digits : list ascii) :
  fold_left number_step digits 0%Z = wrap64 (decimal digits).
Proof. exact (fold_number_step_wrap digits 0). Qed.

Lemma fits_int64_Some (z : Z) : fits_int64 (Some z) = true <-> in_int64 z.
Proof.
  unfold fits_int64, in_int64. rewrite andb_true_iff, !Z.leb_le. reflexivity.
Qed.

(** The truncating quotient of two [int64_t] values is one, except for the
    two undefined cases. *)
Lemma quot_range (l r : Z) :
  in_int64 l -> in_int64 r -> r <> 0%Z ->
  ~ (l = INT64_MIN /\ r = (-1)%Z) ->
  in_int64 (Z.quot l r).
Proof.
  unfold in_int64, INT64_MIN, INT64_MAX. intros Hl Hr Hr0 Hov.
  assert (Habs : (Z.abs (Z.quot l r) <= Z.abs l)%Z).
  { rewrite <- Z.quot_abs by exact Hr0.
    apply Z.quot_le_upper_bound; [lia|]. nia. }
  destruct (Z.eq_dec (Z.quot l r) (2 ^ 63)) as [Heq|Hne]; [|lia].
  exfalso. assert (Hlmin : l = (- 2 ^ 63)%Z) by lia.
  apply Hov. split; [exact Hlmin|].
  subst l. destruct (Z.eq_dec r (-1)) as [|Hr1]; [assumption|exfalso].
  destruct (Z.eq_dec r 1) as [->|Hr2].
  { rewrite Z.quot_1_r in Heq. lia. }
  assert (Hlt : (Z.abs (Z.quot (- 2 ^ 63) r) < 2 ^ 63)%Z).
  { clear Heq Habs. rewrite <- Z.quot_abs by exact Hr0.
    apply Z.quot_lt_upper_bound; [lia|lia|].
    change (Z.abs (- 2 ^ 63)) with (2 ^ 63)%Z. nia. }
  rewrite Heq in Hlt. lia.
Qed.

Lemma apply_op_range (op : Op) (l r v : Z) :
  in_int64 l -> in_int64 r -> apply_op op l r = inr v -> in_int64 v.
Proof.
  intros Hl Hr. destruct op; cbn [apply_op]; intros H.
  1-3: injection H as <-; apply wrap64_range.
  destruct (r =? 0)%Z eqn:Hr0; [discriminate|].
  destruct ((l =? INT64_MIN) && (r =? -1))%Z eqn:Hov; [discriminate|].
  injection H as <-. apply Z.eqb_neq in Hr0.
  apply quot_range; try assumption.
  intros [-> ->]. discriminate Hov.
Qed.

(** Where nothing overflows and no division is undefined, the compiled code
    computes the mathematical value. *)
Lemma eval64_exact (e : expr) (v : Z) :
  denote e = Some v -> fits e = true -> eval64 e = inr v.
Proof.
  revert v. induction e as [digits|e IH|op e1 IH1 e2 IH2]; intros v Hv Hfit.
  - cbn [denote fits eval64] in *. injection Hv as <-.
    rewrite fold_number_step_decimal, wrap64_small; [reflexivity|].
    now apply fits_int64_Some.
  - cbn [denote fits eval64] in *. now apply IH.
  - cbn [denote fits eval64] in *.
    apply andb_true_iff in Hfit. destruct Hfit as [Hfit Hres].
    apply andb_true_iff in Hfit. destruct Hfit as [Hfit1 Hfit2].
    destruct (denote e1) as [l|]; [|discriminate].
    destruct (denote e2) as [r|]; [|discriminate].
    rewrite (IH1 l eq_refl Hfit1), (IH2 r eq_refl Hfit2).
    destruct op; cbn [apply_op].
    1-3: injection Hv as <-; apply fits_int64_Some in Hres;
      now rewrite wrap64_small.
    destruct (r =? 0)%Z; [discriminate|].
    rewrite Hv in Hres. injection Hv as <-.
    apply fits_int64_Some in Hres.
    destruct ((l =? INT64_MIN) && (r =? -1))%Z eqn:Hov; [|reflexivity].
    exfalso. apply andb_true_iff in Hov. destruct Hov as [Hl Hr].
    apply Z.eqb_eq in Hl. apply Z.eqb_eq in Hr. subst l r.
    revert Hres. unfold in_int64, INT64_MIN, INT64_MAX.
    change (Z.quot (- 2 ^ 63) (-1)) with (2 ^ 63)%Z. lia.
Qed.

(** ** Results are 64-bit values *)

Lemma yields_ret {A} (Q : A -> Prop) (a : A) : Q a -> yields Q (ret a).
Proof. intros Ha s a' s' H. injection H as <- _. exact Ha. Qed.

Lemma yields_bind {A B} (P : A -> Prop) (Q : B -> Prop)
  (m : M A) (k : A -> M B) :
  yields P m -> (forall a, P a -> yields Q (k a)) -> yields Q (bind m k).
Proof.
  intros Hm Hk s b s'. rewrite bind_eq.
  destruct (m s) as [a s1|u|] eqn:Hs; try discriminate.
  apply (Hk a (Hm _ _ _ Hs)).
Qed.

Lemma yields_any {A} (m : M A) : yields (fun _ => True) m.
Proof. intros s a s' _. exact I. Qed.

Lemma yields_R_number_loop (fuel : nat) (result : int64) :
  in_int64 result -> yields int64_result (R.number_loop fuel result).
Proof.
  revert result. induction fuel as [|fuel IH]; intros result Hres;
    cbn [R.number_loop].
  - intros s a s' H. discriminate H.
  - apply (yields_bind (fun _ => True)); [apply yields_any|].
    intros d _. destruct (isdigit d); [|now apply yields_ret].
    apply (yields_bind (fun _ => True)); [apply yields_any|].
    intros [c|k] _; [|now apply yields_ret].
    apply IH, wrap64_range.
Qed.

Lemma yields_R_inner_expression (expression : M (R.Result int64)) :
  yields int64_result expression ->
  yields int64_result (R.inner_expression expression).
Proof.
  intros He. unfold R.inner_expression.
  apply (yields_bind (fun _ => True)); [apply yields_any|].
  intros [op|k] _; [|now apply yields_ret].
  apply (yields_bind int64_result); [exact He|].
  intros [l|k] Hl; [|now apply yields_ret].
  apply (yields_bind int64_result); [exact He|].
  intros [r|k] Hr; [|now apply yields_ret].
  destruct (apply_op op l r) as [u|v] eqn:Hop.
  - intros s a s' H. discriminate H.
  - apply yields_ret. exact (apply_op_range op l r v Hl Hr Hop).
Qed.

Lemma yields_R_expression (fuel : nat) :
  yields int64_result (R.expression fuel).
Proof.
  induction fuel as [|fuel IH]; cbn [R.expression].
  - intros s a s' H. discriminate H.
  - unfold R.expression_body.
    apply (yields_bind (fun _ => True)); [apply yields_any|]. intros _ _.
    apply (yields_bind (fun _ => True)); [apply yields_any|]. intros c _.
    destruct (Ascii.eqb c "(").
    + apply (yields_bind (fun _ => True)); [apply yields_any|]. intros _ _.
      apply (yields_bind (fun _ => True)); [apply yields_any|]. intros _ _.
      apply (yields_bind int64_result); [exact IH|].
      intros [v|k] Hv; [|now apply yields_ret].
      apply (yields_bind (fun _ => True)); [apply yields_any|]. intros _ _.
      apply (yields_bind (fun _ => True)); [apply yields_any|].
      intros [x|k] _; now apply yields_ret.
    + destruct ((code "0" <=? code c) && (code c <=? code "9"))%Z.
      * apply yields_R_number_loop. unfold in_int64, INT64_MIN, INT64_MAX. lia.
      * apply yields_R_inner_expression, IH.
Qed.

(** ** Renderings and what follows them *)

Lemma starts_with_digit_app (l follow : list ascii) :
  l <> [] -> starts_with_digit (l ++ follow) = starts_with_digit l.
Proof. destruct l; [congruence|reflexivity]. Qed.

Lemma ends_with_digit_app (l1 l2 : list ascii) :
  l2 <> [] -> ends_with_digit (l1 ++ l2) = ends_with_digit l2.
Proof.
  intros Hne. unfold ends_with_digit. rewrite rev_app_distr.
  apply starts_with_digit_app.
  intros H. apply (f_equal (@rev ascii)) in H.
  rewrite rev_involutive in H. exact (Hne H).
Qed.

Lemma ends_with_digit_cons (c : ascii) (l : list ascii) :
  l <> [] -> ends_with_digit (c :: l) = ends_with_digit l.
Proof. exact (ends_with_digit_app [c] l). Qed.

Lemma parses_nonempty (text : list ascii) (e : expr) (follow : list ascii) :
  parses text e follow -> text <> [].
Proof. induction 1; try discriminate. assumption. Qed.

(** A rendering that ends in a digit is not followed by one. *)
Lemma parses_ends (text : list ascii) (e : expr) (follow : list ascii) :
  parses text e follow ->
  ends_with_digit text = true -> starts_with_digit follow = false.
Proof.
  induction 1 as [c text e follow Hc Hp IH
                 |digits follow Hne Hd Hf
                 |text e ws follow Hp IH Hws
                 |op text1 e1 text2 e2 follow Hp1 IH1 Hp2 IH2]; intros Hend.
  - apply IH. rewrite <- Hend. symmetry.
    apply ends_with_digit_cons. exact (parses_nonempty _ _ _ Hp).
  - exact Hf.
  - exfalso. revert Hend.
    change ("("%char :: text ++ ws ++ [")"%char])
      with (("("%char :: text) ++ ws ++ [")"%char]).
    rewrite app_assoc, ends_with_digit_app by discriminate. discriminate.
  - apply IH2. rewrite <- Hend. symmetry.
    change (op_char op :: text1 ++ text2)
      with ((op_char op :: text1) ++ text2).
    apply ends_with_digit_app. exact (parses_nonempty _ _ _ Hp2).
Qed.

(** What follows a rendering matters only where a digit would meet a
    digit. *)
Lemma parses_follow (text : list ascii) (e : expr) (follow : list ascii) :
  parses text e follow ->
  forall follow',
    (ends_with_digit text = true -> starts_with_digit follow' = false) ->
    parses text e follow'.
Proof.
  induction 1 as [c text e follow Hc Hp IH
                 |digits follow Hne Hd Hf
                 |text e ws follow Hp IH Hws
                 |op text1 e1 text2 e2 follow Hp1 IH1 Hp2 IH2];
    intros follow' Hfollow.
  - apply parses_space; [exact Hc|]. apply IH. intros Hend. apply Hfollow.
    rewrite ends_with_digit_cons; [exact Hend|].
    exact (parses_nonempty _ _ _ Hp).
  - apply parses_number; try assumption. apply Hfollow.
    unfold ends_with_digit.
    destruct (rev digits) as [|c l] eqn:Hrev.
    + apply (f_equal (@rev ascii)) in Hrev. rewrite rev_involutive in Hrev.
      contradiction.
    + cbn [starts_with_digit].
      assert (Hall : forallb isdigit (rev digits) = true).
      { rewrite forallb_forall in *. intros x Hx. apply Hd.
        now apply in_rev. }
      rewrite Hrev in Hall. cbn [forallb] in Hall.
      now apply andb_true_iff in Hall.
  - apply parses_paren; [|exact Hws]. apply IH. intros _.
    destruct ws as [|w ws]; [reflexivity|].
    cbn [app starts_with_digit forallb] in *.
    apply andb_true_iff in Hws. destruct Hws as [Hw _].
    destruct (isdigit w) eqn:Hd; [|reflexivity].
    apply isdigit_not_space in Hd. congruence.
  - pose proof (parses_nonempty _ _ _ Hp2) as Hne2.
    apply parses_binary.
    + apply IH1. intros Hend.
      rewrite starts_with_digit_app by exact Hne2.
      rewrite <- (starts_with_digit_app text2 follow) by exact Hne2.
      exact (parses_ends _ _ _ Hp1 Hend).
    + apply IH2. intros Hend. apply Hfollow.
      change (op_char op :: text1 ++ text2)
        with ((op_char op :: text1) ++ text2).
      rewrite ends_with_digit_app; [exact Hend|exact Hne2].
Qed.

(** ** [number] never reports an error *)

Lemma R_number_loop_no_error (fuel : nat) (result : int64) (s : Parser) :
  failure (R.number_loop fuel result s) = None.
Proof.
  revert result s. induction fuel as [|fuel IH]; intros result s;
    [reflexivity|].
  cbn [R.number_loop]. rewrite bind_eq.
  destruct (R.peek s) as [d s'|u|] eqn:Hpeek; try reflexivity.
  destruct (isdigit d) eqn:Hd; [|reflexivity].
  destruct (peek_then_get_char _ _ _ Hpeek)
    as (-> & [(-> & _)|(_ & HR & _)]).
  - rewrite isdigit_zero in Hd. discriminate.
  - rewrite bind_eq, HR. apply IH.
Qed.

(** ** The recursion of [expression] *)

(** The body of [expression] consults its recursive entry point only at
    states with strictly less to read. *)
Lemma R_expression_body_calls (fuel : nat) (rec1 rec2 : M (R.Result int64))
  (s : Parser) :
  wf s -> remaining s < fuel ->
  (forall s', wf s' -> remaining s' < remaining s ->
              keeps_cursor rec1 s' /\ rec1 s' = rec2 s') ->
  R.expression_body fuel rec1 s = R.expression_body fuel rec2 s.
Proof.
  intros Hwf Hfuel Hrec.
  rewrite !R_expression_body_unfold; try assumption.
  2:{ intros s' Hwf' Hlt. destruct (Hrec s' Hwf' Hlt) as [Hk Heq].
      unfold keeps_cursor in *. now rewrite <- Heq. }
  2:{ intros s' Hwf' Hlt. apply (Hrec s' Hwf' Hlt). }
  unfold dispatch. cbv zeta.
  pose proof (wf_after_ws s Hwf) as Hwf1.
  destruct (rest (skip (List.length (ws_run (rest s))) s)) as [|c l] eqn:Hr1;
    [reflexivity|].
  destruct (rest_cons _ c l Hwf1 Hr1) as (_ & _ & Hr2 & Hwf2).
  destruct (Ascii.eqb c "(").
  - assert (Hwf3 : wf (skip (List.length (ws_run l))
                         (skip 1 (skip (List.length (ws_run (rest s))) s)))).
    { rewrite <- Hr2. apply wf_after_ws, Hwf2. }
    pose proof (remaining_inner s c l (List.length (ws_run l)) Hwf Hr1
                  (or_introl Hwf3)) as Hlt.
    destruct (Hrec _ Hwf3 Hlt) as [_ <-]. reflexivity.
  - destruct (isdigit c); [reflexivity|].
    destruct (operator_of c) as [op|]; [|reflexivity].
    pose proof (remaining_inner s c l 0 Hwf Hr1) as Hlt.
    rewrite skip_0 in Hlt. specialize (Hlt (or_introl Hwf2)).
    destruct (Hrec _ Hwf2 Hlt) as [Hk <-]. unfold keeps_cursor in Hk.
    destruct (rec1 (skip 1 _)) as [[a|k] s3|u|]; try reflexivity.
    destruct Hk as [Hwf3 Hl3]. apply later_remaining in Hl3.
    destruct (Hrec s3 Hwf3 ltac:(lia)) as [_ <-]. reflexivity.
Qed.

Lemma fuel_for_enough (program : string) (fuel : nat) :
  fuel_for program <= fuel -> remaining (Parser_of program) < fuel.
Proof. rewrite remaining_Parser_of. unfold fuel_for. lia. Qed.

Lemma E_expression_finishes (fuel : nat) (s : Parser) :
  wf s -> remaining s < fuel -> finishes (E.expression fuel) s.
Proof.
  intros Hwf Hfuel HE.
  apply (R_expression_finishes fuel s Hwf Hfuel).
  now rewrite expression_agree, HE.
Qed.

Lemma reify_injective {A} (r r' : run (E.completion A)) :
  reify r = reify r' -> r = r'.
Proof.
  destruct r as [[a|[k]] s|u|], r' as [[a'|[k']] s'|u'|]; cbn;
    intros H; try discriminate; try reflexivity;
    injection H; intros; subst; reflexivity.
Qed.

Lemma E_expression_fuel (fuel fuel' : nat) (s : Parser) :
  wf s -> remaining s < fuel -> remaining s < fuel' ->
  E.expression fuel s = E.expression fuel' s.
Proof.
  intros Hwf Hfuel Hfuel'. apply reify_injective.
  rewrite <- !expression_agree. now apply R_expression_fuel.
Qed.

(** * The claims *)

(** C1. For every input string the exception-based parser and the
    explicit-result parser are observably equivalent: the parse that
    [execute] runs ends in the same way in both (a thrown [Error] of kind
    [k] where the other returns the error [k], the same [int64_t] value
    where they succeed, the same final cursor), and so the public results
    of [execute] are equal.  The same holds from every state and for every
    unrolling bound. *)
Theorem variants_equivalent (program : string) :
  R.classify program = reify (E.classify program) /\
  failure (R.classify program) = thrown (E.classify program) /\
  R.execute program = E.execute program /\
  (forall fuel s, R.expression fuel s = reify (E.expression fuel s)).
Proof.
  split; [apply classify_agree|].
  split; [unfold thrown; now rewrite classify_agree|].
  split; [apply execute_agree|].
  apply expression_agree.
Qed.

Lemma reify_Ok {A} (r : run (E.completion A)) (a : A) (s : Parser) :
  reify r = Done (R.Ok a) s -> r = Done (E.Normal a) s.
Proof.
  destruct r as [[a'|e] s'|u|]; cbn; intros H; try discriminate.
  now injection H as -> ->.
Qed.

Lemma undefined_division (u : Undefined) :
  u <> ReadPastEnd -> u = DivideByZero \/ u = DivideOverflow.
Proof. destruct u; [congruence|now left|now right]. Qed.

(** C2, as stated, fails: on a division by zero [execute] returns nothing
    in either parser. *)
Lemma execute_division_by_zero :
  R.execute "/ 1 0" = Crashes DivideByZero /\
  E.execute "/ 1 0" = Crashes DivideByZero /\
  ~ (exists v, R.execute "/ 1 0" = Returns v) /\
  ~ (exists v, E.execute "/ 1 0" = Returns v).
Proof.
  repeat split; try reflexivity; intros [v H]; vm_compute in H; discriminate H.
Qed.

(** C2, amended.  For every input string, [execute] either returns an
    [int64_t] value or stops in one of the two divisions the source does
    not guard (by zero, or [INT64_MIN / -1]); it never signals an error to
    the caller: whenever the parse classifies a failure, of any
    [ErrorKind], [execute] returns exactly 0. *)
Theorem execute_never_signals (program : string) :
  ((exists v, in_int64 v /\
              R.execute program = Returns v /\ E.execute program = Returns v) \/
   (exists u, (u = DivideByZero \/ u = DivideOverflow) /\
              R.execute program = Crashes u /\ E.execute program = Crashes u))
  /\
  (forall k, failure (R.classify program) = Some k ->
             R.execute program = Returns 0%Z) /\
  (forall k, thrown (E.classify program) = Some k ->
             E.execute program = Returns 0%Z).
Proof.
  pose proof (wf_Parser_of program) as Hwf.
  pose proof (fuel_for_enough program _ (le_n _)) as Hfuel.
  pose proof (R_expression_finishes _ _ Hwf Hfuel) as Hfin.
  pose proof (preserves_R_expression (fuel_for program) _ Hwf) as Hkeep.
  pose proof (yields_R_expression (fuel_for program) (Parser_of program))
    as Hval.
  unfold finishes, keeps_cursor in *.
  rewrite <- (execute_agree program). unfold thrown.
  rewrite <- (classify_agree program).
  unfold R.execute, R.classify in *.
  destruct (R.expression (fuel_for program) (Parser_of program))
    as [[v|k] s|u|]; cbn [failure].
  - split; [|split; intros k H; discriminate H].
    left. exists v. split; [exact (Hval _ _ eq_refl)|]. now split.
  - split; [|now split]. left. exists 0%Z.
    split; [|now split]. unfold in_int64, INT64_MIN, INT64_MAX. lia.
  - split; [|split; intros k H; discriminate H].
    right. exists u. split; [now apply undefined_division|]. now split.
  - contradiction.
Qed.

(** C8. The cursor invariant holds across every parsing operation of both
    parsers.  From a state in which the read position is within the text
    ([p <= end], [end] the length of the input), each of [peek],
    [get_char], [skip_whitespace], [expect_char], [number], [operation],
    [inner_expression] and [expression] ends, whether it succeeds or
    fails, in such a state again, over the same text, with a read position
    that is not smaller; none of them reads outside the text; and at the
    end of the text [peek] yields the sentinel without moving while
    [get_char] signals [UnexpectedEOF].  The state [execute] starts from is
    such a state. *)
Theorem cursor_invariant (s : Parser) (fuel : nat) (c : ascii) :
  wf s ->
  (keeps_cursor R.peek s /\ keeps_cursor R.get_char s /\
   keeps_cursor (R.skip_whitespace fuel) s /\
   keeps_cursor (R.expect_char c) s /\ keeps_cursor (R.number fuel) s /\
   keeps_cursor R.operation s /\
   keeps_cursor (R.inner_expression (R.expression fuel)) s /\
   keeps_cursor (R.expression fuel) s) /\
  (keeps_cursor E.peek s /\ keeps_cursor E.get_char s /\
   keeps_cursor (E.skip_whitespace fuel) s /\
   keeps_cursor (E.expect_char c) s /\ keeps_cursor (E.number fuel) s /\
   keeps_cursor E.operation s /\
   keeps_cursor (E.inner_expression (E.expression fuel)) s /\
   keeps_cursor (E.expression fuel) s) /\
  (p s = end_ s ->
   R.peek s = Done zero s /\ E.peek s = Done (E.Normal zero) s /\
   R.get_char s = Done (R.Err UnexpectedEOF) s /\
   E.get_char s = Done (E.Thrown (E.mkError UnexpectedEOF)) s) /\
  (forall program, wf (Parser_of program)).
Proof.
  intros Hwf. repeat split.
  - now apply preserves_R_peek.
  - now apply preserves_R_get_char.
  - now apply preserves_R_skip_whitespace.
  - now apply preserves_R_expect_char.
  - now apply preserves_R_number.
  - now apply preserves_R_operation.
  - apply preserves_R_inner_expression; [apply preserves_R_expression|exact Hwf].
  - now apply preserves_R_expression.
  - now apply preserves_E_peek.
  - now apply preserves_E_get_char.
  - now apply preserves_E_skip_whitespace.
  - now apply preserves_E_expect_char.
  - now apply preserves_E_number.
  - now apply preserves_E_operation.
  - apply preserves_E_inner_expression; [apply preserves_E_expression|exact Hwf].
  - now apply preserves_E_expression.
  - apply (rest_nil_iff s Hwf) in H. now rewrite R_peek_eq, H.
  - apply (rest_nil_iff s Hwf) in H. now rewrite E_peek_eq, H.
  - apply (rest_nil_iff s Hwf) in H. now apply R_get_char_nil.
  - apply (rest_nil_iff s Hwf) in H. now apply E_get_char_nil.
  - apply wf_Parser_of.
Qed.

Lemma cursor_invariant_witness :
  wf (Parser_of "(+ 1 2 x") /\
  keeps_cursor (R.expression 9) (Parser_of "(+ 1 2 x") /\
  keeps_cursor (E.expression 9) (Parser_of "(+ 1 2 x").
Proof.
  assert (H : wf (Parser_of "(+ 1 2 x")) by (split; simpl; lia).
  split; [exact H|].
  pose proof (cursor_invariant (Parser_of "(+ 1 2 x") 9 ")" H) as C.
  split; [apply C | apply C].
Defined.

(** A successful [expression] has consumed at least one character. *)
Lemma R_expression_consumes (fuel : nat) (s s' : Parser) (v : int64) :
  wf s -> remaining s < fuel ->
  R.expression fuel s = Done (R.Ok v) s' -> p s < p s'.
Proof.
  intros Hwf Hfuel. destruct fuel as [|fuel]; [lia|].
  rewrite R_expression_unfold by assumption. unfold dispatch. cbv zeta.
  pose proof (wf_after_ws s Hwf) as Hwf1.
  set (s1 := skip (List.length (ws_run (rest s))) s) in *.
  assert (Hp1 : p s <= p s1) by (unfold s1; simpl; lia).
  destruct (rest s1) as [|c l] eqn:Hr1; [discriminate|].
  destruct (rest_cons s1 c l Hwf1 Hr1) as (_ & _ & Hr2 & Hwf2).
  destruct (Ascii.eqb c "(").
  - assert (Hwf3 : wf (skip (List.length (ws_run l)) (skip 1 s1))).
    { rewrite <- Hr2. apply wf_after_ws, Hwf2. }
    destruct (R.expression fuel _) as [[a|k] s3|u|] eqn:Hinner;
      try discriminate.
    destruct (preserves_done _ _ _ _ (preserves_R_expression fuel) Hwf3 Hinner)
      as [_ (_ & _ & Hp3)].
    simpl in Hp3.
    destruct (rest (skip _ s3)) as [|x l']; [discriminate|].
    destruct (Ascii.eqb x ")"); [|discriminate].
    intros H. injection H as _ <-. simpl. lia.
  - destruct (isdigit c) eqn:Hc.
    + intros H. injection H as _ <-. cbn [digit_run]. rewrite Hc.
      simpl. lia.
    + destruct (operator_of c) as [op|]; [|discriminate].
      destruct (R.expression fuel (skip 1 s1)) as [[a|k] s3|u|] eqn:Hleft;
        try discriminate.
      destruct (preserves_done _ _ _ _ (preserves_R_expression fuel) Hwf2 Hleft)
        as [Hwf3 (_ & _ & Hp3)].
      simpl in Hp3.
      destruct (R.expression fuel s3) as [[b|k] s4|u|] eqn:Hright;
        try discriminate.
      destruct (preserves_done _ _ _ _ (preserves_R_expression fuel) Hwf3 Hright)
        as [_ (_ & _ & Hp4)].
      destruct (apply_op op a b); [discriminate|].
      intros H. injection H as _ <-. lia.
Qed.

(** C9. Parsing terminates on every input string, well-formed or not.
    Run with an unrolling bound above the number of unread characters
    (as [execute] does), [expression] finishes in both parsers, and with
    the same result for every larger bound.  Each run of its body consults
    the recursive entry point only at states with strictly fewer unread
    characters; an [expression] that succeeds has consumed at least one
    character; and when only whitespace is left, it ends with
    [UnexpectedEOF] without recursing at all. *)
Theorem parsing_terminates :
  (forall program,
      R.classify program <> OutOfFuel /\ E.classify program <> OutOfFuel /\
      R.execute program <> Unfinished /\ E.execute program <> Unfinished) /\
  (forall fuel s,
      wf s -> remaining s < fuel ->
      finishes (R.expression fuel) s /\ finishes (E.expression fuel) s /\
      forall fuel', fuel <= fuel' ->
        R.expression fuel' s = R.expression fuel s /\
        E.expression fuel' s = E.expression fuel s) /\
  (forall fuel rec1 rec2 s,
      wf s -> remaining s < fuel ->
      (forall s', wf s' -> remaining s' < remaining s ->
                  keeps_cursor rec1 s' /\ rec1 s' = rec2 s') ->
      R.expression_body fuel rec1 s = R.expression_body fuel rec2 s) /\
  (forall fuel s v s',
      wf s -> remaining s < fuel ->
      R.expression fuel s = Done (R.Ok v) s' -> p s < p s') /\
  (forall fuel rec s,
      wf s -> remaining s < fuel ->
      rest (skip (List.length (ws_run (rest s))) s) = [] ->
      R.expression_body fuel rec s =
      Done (R.Err UnexpectedEOF) (skip (List.length (ws_run (rest s))) s)).
Proof.
  assert (Hprog : forall program,
             R.classify program <> OutOfFuel /\
             E.classify program <> OutOfFuel).
  { intros program.
    pose proof (wf_Parser_of program) as Hwf.
    pose proof (fuel_for_enough program _ (le_n _)) as Hfuel.
    split; [now apply R_expression_finishes|now apply E_expression_finishes]. }
  split; [|split; [|split; [|split]]].
  - intros program. destruct (Hprog program) as [HR HE].
    repeat split; try assumption.
    + unfold R.execute. destruct (R.classify program) as [[v|k] s|u|];
        congruence.
    + unfold E.execute. destruct (E.classify program) as [[v|k] s|u|];
        congruence.
  - intros fuel s Hwf Hfuel.
    split; [now apply R_expression_finishes|].
    split; [now apply E_expression_finishes|].
    intros fuel' Hle.
    split; [apply R_expression_fuel|apply E_expression_fuel];
      (assumption || lia).
  - exact R_expression_body_calls.
  - intros fuel s v s'. apply R_expression_consumes.
  - intros fuel rec s Hwf Hfuel Hr. unfold R.expression_body.
    rewrite bind_eq, R_skip_whitespace_eq by assumption.
    pose proof (wf_after_ws s Hwf) as Hwf1.
    rewrite bind_eq, R_peek_eq, Hr by exact Hwf1. cbn [hd].
    change (Ascii.eqb zero "(") with false. cbv iota.
    change ((code "0" <=? code zero) && (code zero <=? code "9"))%Z with false.
    cbv iota. unfold R.inner_expression.
    rewrite bind_eq, R_operation_eq, Hr by exact Hwf1. reflexivity.
Qed.

Lemma parsing_terminates_witness :
  wf (Parser_of "+ (* 2") /\ remaining (Parser_of "+ (* 2") < 7 /\
  finishes (R.expression 7) (Parser_of "+ (* 2") /\
  finishes (E.expression 7) (Parser_of "+ (* 2").
Proof.
  assert (Hwf : wf (Parser_of "+ (* 2")) by (split; simpl; lia).
  assert (Hfuel : remaining (Parser_of "+ (* 2") < 7)
    by (unfold remaining; simpl; lia).
  split; [exact Hwf|]. split; [exact Hfuel|].
  pose proof (proj1 (proj2 parsing_terminates) 7 (Parser_of "+ (* 2") Hwf Hfuel)
    as T.
  split; apply T.
Defined.

(** The maximal run of digits splits the text: digits before, no digit
    next. *)
Lemma digit_run_split (l : list ascii) :
  l = digit_run l ++ skipn (List.length (digit_run l)) l /\
  forallb isdigit (digit_run l) = true /\
  starts_with_digit (skipn (List.length (digit_run l)) l) = false.
Proof.
  induction l as [|c l (IH1 & IH2 & IH3)]; [now repeat split|].
  cbn [digit_run]. destruct (isdigit c) eqn:Hc.
  - cbn [List.length skipn app forallb]. rewrite Hc.
    repeat split; [now f_equal|exact IH2|exact IH3].
  - cbn [List.length skipn app forallb starts_with_digit].
    now repeat split.
Qed.

(** C6. [number] never fails.  From any well-formed state, with an
    unrolling bound above the number of unread characters, it consumes
    exactly the maximal run of leading decimal digits (all of them digits,
    the next character, if any, not a digit; the end of input ends the run
    like any non-digit) and returns the fold of
    [result = result * 10 + digit] over them in 64-bit arithmetic without
    overflow check, that is the decimal value of the run modulo [2^64];
    for an empty run it returns 0 and leaves the cursor where it was.  Both
    parsers do so. *)
Theorem number_folds_digits (fuel : nat) (s : Parser) :
  wf s -> remaining s < fuel ->
  let digits := digit_run (rest s) in
  let value := fold_left number_step digits 0%Z in
  let s' := skip (List.length digits) s in
  R.number fuel s = Done (R.Ok value) s' /\
  E.number fuel s = Done (E.Normal value) s' /\
  value = wrap64 (decimal digits) /\
  rest s = digits ++ rest s' /\
  forallb isdigit digits = true /\
  starts_with_digit (rest s') = false /\
  (starts_with_digit (rest s) = false ->
   R.number fuel s = Done (R.Ok 0%Z) s /\
   E.number fuel s = Done (E.Normal 0%Z) s).
Proof.
  intros Hwf Hfuel digits value s'.
  pose proof (R_number_eq fuel s Hwf Hfuel) as HR. fold digits value s' in HR.
  assert (HE : E.number fuel s = Done (E.Normal value) s').
  { apply reify_Ok. now rewrite <- number_agree. }
  destruct (digit_run_split (rest s)) as (Hsplit & Hall & Hnext).
  split; [exact HR|]. split; [exact HE|].
  split; [apply fold_number_step_decimal|].
  split; [unfold s'; now rewrite rest_skip|].
  split; [exact Hall|].
  split; [unfold s'; now rewrite rest_skip|].
  intros Hnone. rewrite HR, HE. unfold value, s', digits.
  destruct (rest s) as [|c l]; cbn [digit_run].
  - cbn [List.length fold_left]. now rewrite skip_0.
  - cbn [starts_with_digit] in Hnone. rewrite Hnone.
    cbn [List.length fold_left]. now rewrite skip_0.
Qed.

Lemma number_folds_digits_witness :
  wf (skip 2 (Parser_of "+ 42 7")) /\
  remaining (skip 2 (Parser_of "+ 42 7")) < 5 /\
  R.number 5 (skip 2 (Parser_of "+ 42 7")) =
  Done (R.Ok 42%Z) (skip 4 (Parser_of "+ 42 7")).
Proof.
  assert (Hwf : wf (skip 2 (Parser_of "+ 42 7"))) by (split; simpl; lia).
  assert (Hfuel : remaining (skip 2 (Parser_of "+ 42 7")) < 5)
    by (unfold remaining; simpl; lia).
  split; [exact Hwf|]. split; [exact Hfuel|].
  exact (proj1 (number_folds_digits 5 (skip 2 (Parser_of "+ 42 7")) Hwf Hfuel)).
Defined.

(** C10. In the explicit-result parser [number] never returns an error,
    from any state and for any unrolling bound: its loop calls [get_char]
    only after [peek] returned a digit, [peek] returns the sentinel 0 (not
    a digit) at the end of input, so there [get_char] returns the same
    character and the [UnexpectedEOF] branch is never taken.  From a
    well-formed state with a sufficient bound it returns a success value. *)
Theorem number_always_succeeds :
  (forall fuel s, failure (R.number fuel s) = None) /\
  (forall s c s',
      R.peek s = Done c s' -> isdigit c = true ->
      p s' <> end_ s' /\ R.get_char s' = Done (R.Ok c) (skip 1 s')) /\
  (forall fuel s,
      wf s -> remaining s < fuel ->
      exists v s', R.number fuel s = Done (R.Ok v) s').
Proof.
  split; [|split].
  - intros fuel s. apply R_number_loop_no_error.
  - intros s c s' Hpeek Hc.
    destruct (peek_then_get_char _ _ _ Hpeek)
      as (-> & [(-> & _)|(Hne & HR & _)]).
    + rewrite isdigit_zero in Hc. discriminate.
    + now split.
  - intros fuel s Hwf Hfuel. rewrite R_number_eq by assumption. eauto.
Qed.

Lemma number_always_succeeds_witness :
  R.peek (Parser_of "7") = Done "7"%char (Parser_of "7") /\
  isdigit "7" = true /\
  R.get_char (Parser_of "7") = Done (R.Ok "7"%char) (skip 1 (Parser_of "7")).
Proof.
  split; [reflexivity|]. split; [reflexivity|].
  exact (proj2 (proj1 (proj2 number_always_succeeds)
                  (Parser_of "7") "7"%char (Parser_of "7")
                  eq_refl eq_refl)).
Defined.

(** ** Classifications *)

Lemma thrown_get_char (s : Parser) :
  thrown (E.get_char s) = failure (R.get_char s).
Proof. unfold thrown. now rewrite get_char_agree. Qed.

Lemma thrown_operation (s : Parser) :
  thrown (E.operation s) = failure (R.operation s).
Proof. unfold thrown. now rewrite operation_agree. Qed.

Lemma thrown_expect_char (c : ascii) (s : Parser) :
  thrown (E.expect_char c s) = failure (R.expect_char c s).
Proof.
  unfold thrown. rewrite expect_char_agree.
  destruct (E.expect_char c s) as [[[]|e] s'|u|]; reflexivity.
Qed.

Lemma thrown_expression (fuel : nat) (s : Parser) :
  thrown (E.expression fuel s) = failure (R.expression fuel s).
Proof. unfold thrown. now rewrite expression_agree. Qed.

Lemma operator_of_None (c : ascii) :
  operator_of c = None <->
  c <> "+"%char /\ c <> "-"%char /\ c <> "*"%char /\ c <> "/"%char.
Proof.
  unfold operator_of.
  destruct (Ascii.eqb_spec c "+"); [split; [discriminate|tauto]|].
  destruct (Ascii.eqb_spec c "-"); [split; [discriminate|tauto]|].
  destruct (Ascii.eqb_spec c "*"); [split; [discriminate|tauto]|].
  destruct (Ascii.eqb_spec c "/"); [split; [discriminate|tauto]|].
  tauto.
Qed.

Lemma R_get_char_failure (s : Parser) (k : ErrorKind) :
  wf s ->
  (failure (R.get_char s) = Some k <-> k = UnexpectedEOF /\ rest s = []).
Proof.
  intros Hwf. destruct (rest s) as [|c l] eqn:Hr.
  - rewrite R_get_char_nil by assumption. cbn [failure].
    split; [intros H; injection H as <-; now split|intros [-> _]; reflexivity].
  - rewrite (R_get_char_cons s c l) by assumption. cbn [failure].
    split; [discriminate|intros [_ H]; discriminate H].
Qed.

Lemma R_operation_failure (s : Parser) (k : ErrorKind) :
  wf s ->
  (failure (R.operation s) = Some k <->
   (k = UnexpectedEOF /\ rest s = []) \/
   (k = InvalidOperator /\
    exists c l, rest s = c :: l /\ operator_of c = None)).
Proof.
  intros Hwf. rewrite R_operation_eq by exact Hwf.
  destruct (rest s) as [|c l].
  - cbn [failure]. split.
    + intros H. injection H as <-. now left.
    + intros [[-> _]|[_ (c & l & H & _)]]; [reflexivity|discriminate H].
  - destruct (operator_of c) as [op|] eqn:Hop; cbn [failure].
    + split; [discriminate|].
      intros [[_ H]|[_ (c' & l' & H & Hop')]]; [discriminate H|].
      injection H as <- <-. congruence.
    + split.
      * intros H. injection H as <-. right. split; [reflexivity|].
        now exists c, l.
      * intros [[_ H]|[-> _]]; [discriminate H|reflexivity].
Qed.

Lemma R_expect_char_failure (c : ascii) (s : Parser) (k : ErrorKind) :
  wf s ->
  (failure (R.expect_char c s) = Some k <->
   (k = UnexpectedEOF /\ rest s = []) \/
   (k = InvalidCharacter /\ exists x l, rest s = x :: l /\ x <> c)).
Proof.
  intros Hwf. rewrite R_expect_char_eq by exact Hwf.
  destruct (rest s) as [|x l].
  - cbn [failure]. split.
    + intros H. injection H as <-. now left.
    + intros [[-> _]|[_ (x & l & H & _)]]; [reflexivity|discriminate H].
  - destruct (Ascii.eqb_spec x c) as [->|Hne]; cbn [failure].
    + split; [discriminate|].
      intros [[_ H]|[_ (x' & l' & H & Hne)]]; [discriminate H|].
      injection H as <- <-. congruence.
    + split.
      * intros H. injection H as <-. right. split; [reflexivity|].
        now exists x, l.
      * intros [[_ H]|[-> _]]; [discriminate H|reflexivity].
Qed.

Lemma ws_run_all (ws : list ascii) :
  forallb iswspace ws = true -> ws_run ws = ws.
Proof.
  induction ws as [|c ws IH]; [reflexivity|]. cbn [forallb ws_run].
  intros H. apply andb_true_iff in H. destruct H as [Hc Hws].
  now rewrite Hc, IH.
Qed.

(** After ['('] and a complete operand, what stands where [')'] is expected
    decides the classification: nothing gives [UnexpectedEOF], any other
    character [InvalidCharacter]. *)
Lemma R_expression_unclosed (text : list ascii) (e : expr)
  (ws follow : list ascii) (v : int64) (fuel : nat) (s : Parser) :
  parses text e (ws ++ follow) ->
  forallb iswspace ws = true ->
  eval64 e = inr v ->
  wf s -> rest s = "("%char :: text ++ ws ++ follow -> remaining s < fuel ->
  match follow with
  | [] => failure (R.expression fuel s) = Some UnexpectedEOF
  | x :: _ =>
      iswspace x = false -> x <> ")"%char ->
      failure (R.expression fuel s) = Some InvalidCharacter
  end.
Proof.
  intros Hp Hws Hv Hwf Hr Hfuel.
  destruct fuel as [|fuel]; [lia|].
  rewrite R_expression_unfold by assumption. unfold dispatch. cbv zeta.
  destruct (rest_cons s _ _ Hwf Hr) as (_ & _ & Hr1 & Hwf1).
  pose proof (remaining_pos s _ _ Hwf Hr) as Hrem.
  rewrite Hr. cbn [ws_run]. change (iswspace "(") with false. cbv iota.
  cbn [List.length]. rewrite skip_0, Hr.
  change (Ascii.eqb "(" "(") with true. cbv iota.
  assert (Hinner :
            R.expression fuel
              (skip (List.length (ws_run (text ++ ws ++ follow))) (skip 1 s))
            = Done (R.Ok v) (skip (List.length text) (skip 1 s))).
  { rewrite <- Hr1 at 1.
    rewrite R_expression_skip_ws; [|exact Hwf1|rewrite remaining_skip; lia].
    rewrite (R_expression_sound _ _ _ Hp fuel (skip 1 s)), Hv;
      [reflexivity|exact Hwf1|exact Hr1|rewrite remaining_skip; lia]. }
  rewrite Hinner.
  destruct (skip_prefix _ _ _ Hwf1 Hr1) as (Hwf3 & Hr3 & _).
  rewrite Hr3.
  destruct follow as [|x follow].
  - rewrite app_nil_r in *. rewrite ws_run_all by exact Hws.
    destruct (skip_prefix _ ws [] Hwf3) as (_ & Hr4 & _);
      [now rewrite app_nil_r|].
    rewrite Hr4. reflexivity.
  - intros Hx Hne. rewrite ws_run_app by assumption.
    destruct (skip_prefix _ _ _ Hwf3 Hr3) as (_ & Hr4 & _).
    rewrite Hr4. apply Ascii.eqb_neq in Hne. rewrite Hne. reflexivity.
Qed.

(** C4. [expect_char] raises [InvalidCharacter] only when a character was
    read and did not match: in both parsers its failure is
    [InvalidCharacter] exactly when there is a current character different
    from the expected one, and at the end of input the [UnexpectedEOF] of
    the inner [get_char] is what surfaces.  So ["(+ 1 2 "] classifies as
    [UnexpectedEOF] and ["(+ 1 2 x"] as [InvalidCharacter], both with
    public result 0; and so does every input that opens a parenthesis
    around a complete operand and then ends, respectively goes on with a
    character other than [')']. *)
Theorem expect_char_classification :
  (forall (c : ascii) (s : Parser),
      wf s ->
      (rest s = [] ->
       R.expect_char c s = Done (R.Err UnexpectedEOF) s /\
       E.expect_char c s = Done (E.Thrown (E.mkError UnexpectedEOF)) s) /\
      (failure (R.expect_char c s) = Some InvalidCharacter <->
       exists x l, rest s = x :: l /\ x <> c) /\
      (thrown (E.expect_char c s) = Some InvalidCharacter <->
       exists x l, rest s = x :: l /\ x <> c)) /\
  (forall text e ws follow v fuel s,
      parses text e (ws ++ follow) -> forallb iswspace ws = true ->
      eval64 e = inr v ->
      wf s -> rest s = "("%char :: text ++ ws ++ follow ->
      remaining s < fuel ->
      thrown (E.expression fuel s) = failure (R.expression fuel s) /\
      match follow with
      | [] => failure (R.expression fuel s) = Some UnexpectedEOF
      | x :: _ =>
          iswspace x = false -> x <> ")"%char ->
          failure (R.expression fuel s) = Some InvalidCharacter
      end) /\
  (failure (R.classify "(+ 1 2 ") = Some UnexpectedEOF /\
   thrown (E.classify "(+ 1 2 ") = Some UnexpectedEOF /\
   R.execute "(+ 1 2 " = Returns 0%Z /\ E.execute "(+ 1 2 " = Returns 0%Z) /\
  (failure (R.classify "(+ 1 2 x") = Some InvalidCharacter /\
   thrown (E.classify "(+ 1 2 x") = Some InvalidCharacter /\
   R.execute "(+ 1 2 x" = Returns 0%Z /\ E.execute "(+ 1 2 x" = Returns 0%Z).
Proof.
  split; [|split; [|split; repeat split; reflexivity]].
  2:{ intros text e ws follow v fuel s Hp Hws Hv Hwf Hr Hfuel.
      split; [apply thrown_expression|].
      exact (R_expression_unclosed text e ws follow v fuel s
               Hp Hws Hv Hwf Hr Hfuel). }
  intros c s Hwf.
  assert (Hiff : failure (R.expect_char c s) = Some InvalidCharacter <->
                 exists x l, rest s = x :: l /\ x <> c).
  { rewrite (R_expect_char_failure c s InvalidCharacter Hwf). split.
    - intros [[H _]|[_ H]]; [discriminate H|exact H].
    - intros H. right. now split. }
  split; [|split].
  - intros Hr. split.
    + rewrite R_expect_char_eq, Hr by exact Hwf. reflexivity.
    + unfold E.expect_char. rewrite bindX_eq, E_get_char_nil by assumption.
      reflexivity.
  - exact Hiff.
  - rewrite thrown_expect_char. exact Hiff.
Qed.

Lemma expect_char_classification_witness :
  wf (skip 7 (Parser_of "(+ 1 2 x")) /\
  (failure (R.expect_char ")" (skip 7 (Parser_of "(+ 1 2 x")))
   = Some InvalidCharacter <->
   exists x l, rest (skip 7 (Parser_of "(+ 1 2 x")) = x :: l /\ x <> ")"%char).
Proof.
  assert (Hwf : wf (skip 7 (Parser_of "(+ 1 2 x"))) by (split; simpl; lia).
  split; [exact Hwf|].
  exact (proj1 (proj2 (proj1 expect_char_classification ")"%char
                         (skip 7 (Parser_of "(+ 1 2 x")) Hwf))).
Defined.

(** C5. The three classifications arise in exactly their defining
    situations, in both parsers.  [get_char] fails only with
    [UnexpectedEOF], exactly at the end of input.  [operation] fails with
    [UnexpectedEOF] exactly at the end of input and with [InvalidOperator]
    exactly when the current character is none of [+ - * /]; it never
    yields [InvalidCharacter].  [expect_char] fails with [UnexpectedEOF]
    exactly at the end of input and with [InvalidCharacter] exactly when
    the current character differs from the expected one; it never yields
    [InvalidOperator].  And [expression], once the whitespace is skipped,
    classifies a missing character as [UnexpectedEOF] and a character in
    operator position (not ['('], not a digit) that is none of [+ - * /] as
    [InvalidOperator]. *)
Theorem error_taxonomy :
  (forall s : Parser,
      wf s ->
      (forall k, failure (R.get_char s) = Some k <->
                 k = UnexpectedEOF /\ rest s = []) /\
      (forall k, failure (R.operation s) = Some k <->
                 (k = UnexpectedEOF /\ rest s = []) \/
                 (k = InvalidOperator /\
                  exists c l, rest s = c :: l /\
                    c <> "+"%char /\ c <> "-"%char /\
                    c <> "*"%char /\ c <> "/"%char)) /\
      (forall c k, failure (R.expect_char c s) = Some k <->
                   (k = UnexpectedEOF /\ rest s = []) \/
                   (k = InvalidCharacter /\
                    exists x l, rest s = x :: l /\ x <> c)) /\
      (thrown (E.get_char s) = failure (R.get_char s) /\
       thrown (E.operation s) = failure (R.operation s) /\
       forall c, thrown (E.expect_char c s) = failure (R.expect_char c s)) /\
      (forall fuel,
          remaining s < fuel ->
          thrown (E.expression fuel s) = failure (R.expression fuel s) /\
          match rest (skip (List.length (ws_run (rest s))) s) with
          | [] => failure (R.expression fuel s) = Some UnexpectedEOF
          | c :: _ =>
              c <> "("%char -> isdigit c = false ->
              c <> "+"%char /\ c <> "-"%char /\
              c <> "*"%char /\ c <> "/"%char ->
              failure (R.expression fuel s) = Some InvalidOperator
          end)) /\
  (failure (R.classify "+ 3") = Some UnexpectedEOF /\
   thrown (E.classify "+ 3") = Some UnexpectedEOF) /\
  (failure (R.classify "& 1 2") = Some InvalidOperator /\
   thrown (E.classify "& 1 2") = Some InvalidOperator).
Proof.
  split; [|split; split; reflexivity].
  intros s Hwf. split; [|split; [|split; [|split]]].
  - intros k. now apply R_get_char_failure.
  - intros k. rewrite (R_operation_failure s k Hwf).
    split; (intros [H|[Hk (c & l & Hr & Hop)]]; [now left|right]);
      (split; [exact Hk|]); exists c, l; (split; [exact Hr|]);
      now apply operator_of_None.
  - intros c k. now apply R_expect_char_failure.
  - split; [apply thrown_get_char|].
    split; [apply thrown_operation|intros c; apply thrown_expect_char].
  - intros fuel Hfuel. split; [apply thrown_expression|].
    destruct fuel as [|fuel]; [lia|].
    rewrite R_expression_unfold by assumption. unfold dispatch. cbv zeta.
    destruct (rest (skip (List.length (ws_run (rest s))) s)) as [|c l];
      [reflexivity|].
    intros Hparen Hdigit Hop.
    apply Ascii.eqb_neq in Hparen. apply operator_of_None in Hop.
    rewrite Hparen, Hdigit, Hop. reflexivity.
Qed.

Lemma error_taxonomy_witness :
  wf (Parser_of "  & 1 2") /\ remaining (Parser_of "  & 1 2") < 8 /\
  failure (R.expression 8 (Parser_of "  & 1 2")) = Some InvalidOperator.
Proof.
  assert (Hwf : wf (Parser_of "  & 1 2")) by (split; simpl; lia).
  assert (Hfuel : remaining (Parser_of "  & 1 2") < 8)
    by (unfold remaining; simpl; lia).
  split; [exact Hwf|]. split; [exact Hfuel|].
  refine (proj2 (proj2 (proj2 (proj2 (proj2 (proj1 error_taxonomy _ Hwf))))
                   8 Hfuel) _ _ _).
  - discriminate.
  - reflexivity.
  - repeat split; discriminate.
Defined.

(** ** Well-formed programs *)

Lemma append_empty (program : string) : (program ++ "")%string = program.
Proof.
  induction program as [|c program IH]; [reflexivity|].
  cbn [String.append]. now rewrite IH.
Qed.

Lemma length_append (a b : string) :
  String.length (a ++ b) = String.length a + String.length b.
Proof.
  induction a as [|c a IH]; [reflexivity|].
  cbn [String.append String.length]. now rewrite IH.
Qed.

(** On a rendering of [e] followed by [trailing], the parse is the
    evaluation of [e] and stops where the rendering ends. *)
Lemma classify_sound (program trailing : string) (e : expr) :
  parses (list_ascii_of_string program) e (list_ascii_of_string trailing) ->
  R.classify (program ++ trailing) =
  match eval64 e with
  | inr v => Done (R.Ok v)
               (skip (String.length program) (Parser_of (program ++ trailing)))
  | inl u => Undef u
  end.
Proof.
  intros Hp. unfold R.classify.
  rewrite <- (length_list_ascii_of_string program).
  apply (R_expression_sound _ _ _ Hp).
  - apply wf_Parser_of.
  - rewrite rest_Parser_of. apply list_ascii_of_string_app.
  - apply fuel_for_enough, le_n.
Qed.

Lemma execute_sound (program trailing : string) (e : expr) :
  parses (list_ascii_of_string program) e (list_ascii_of_string trailing) ->
  R.execute (program ++ trailing) =
  match eval64 e with
  | inr v => Returns v
  | inl u => Crashes u
  end.
Proof.
  intros Hp. unfold R.execute. rewrite (classify_sound _ _ _ Hp).
  destruct (eval64 e); reflexivity.
Qed.

(** C3, as stated, fails in two ways: a well-formed program whose value
    does not fit 64 bits comes back wrapped around, and one that divides by
    zero has no value and makes [execute] crash. *)
Lemma execute_not_mathematical :
  (well_formed "9223372036854775808"
     (Number (list_ascii_of_string "9223372036854775808")) /\
   denote (Number (list_ascii_of_string "9223372036854775808"))
   = Some 9223372036854775808%Z /\
   R.execute "9223372036854775808" = Returns (-9223372036854775808)%Z /\
   E.execute "9223372036854775808" = Returns (-9223372036854775808)%Z) /\
  (well_formed "/ 1 0" (Binary Div (Number ["1"%char]) (Number ["0"%char])) /\
   denote (Binary Div (Number ["1"%char]) (Number ["0"%char])) = None /\
   R.execute "/ 1 0" = Crashes DivideByZero /\
   E.execute "/ 1 0" = Crashes DivideByZero).
Proof.
  split.
  - split; [|repeat split; reflexivity].
    apply parses_number; [discriminate|reflexivity|reflexivity].
  - split; [|repeat split; reflexivity].
    apply (parses_binary Div [" "; "1"]%char _ [" "; "0"]%char _ []);
      (apply parses_space; [reflexivity|]);
      (apply parses_number; [discriminate|reflexivity|reflexivity]).
Qed.

(** C3, amended.  For every well-formed program of the grammar, possibly
    followed by trailing text, that does not divide by zero and whose
    literals and intermediate results all fit 64 bits, [execute] returns
    the mathematically correct value of the prefix expression under eager
    bottom-up evaluation with truncating division, in both parsers; in
    particular ["+ 3 4"] gives 7, ["* (+ 1 2) 5"] gives 15 and
    ["- 10 (/ 20 4)"] gives 5. *)
Theorem execute_correct :
  (forall (program trailing : string) (e : expr) (v : Z),
      parses (list_ascii_of_string program) e
             (list_ascii_of_string trailing) ->
      denote e = Some v -> fits e = true ->
      R.execute (program ++ trailing) = Returns v /\
      E.execute (program ++ trailing) = Returns v) /\
  (R.execute "+ 3 4" = Returns 7%Z /\ E.execute "+ 3 4" = Returns 7%Z) /\
  (R.execute "* (+ 1 2) 5" = Returns 15%Z /\
   E.execute "* (+ 1 2) 5" = Returns 15%Z) /\
  (R.execute "- 10 (/ 20 4)" = Returns 5%Z /\
   E.execute "- 10 (/ 20 4)" = Returns 5%Z).
Proof.
  split; [|repeat split; reflexivity].
  intros program trailing e v Hp Hv Hfit.
  rewrite <- execute_agree.
  rewrite (execute_sound _ _ _ Hp), (eval64_exact e v Hv Hfit). now split.
Qed.

Lemma execute_correct_witness :
  parses (list_ascii_of_string "* (+ 1 2) 5")
         (Binary Mul
            (Paren (Binary Add (Number ["1"%char]) (Number ["2"%char])))
            (Number ["5"%char]))
         (list_ascii_of_string " and more") /\
  R.execute ("* (+ 1 2) 5" ++ " and more") = Returns 15%Z /\
  E.execute ("* (+ 1 2) 5" ++ " and more") = Returns 15%Z.
Proof.
  assert (Hp : parses (list_ascii_of_string "* (+ 1 2) 5")
                 (Binary Mul
                    (Paren (Binary Add (Number ["1"%char]) (Number ["2"%char])))
                    (Number ["5"%char]))
                 (list_ascii_of_string " and more")).
  { apply (parses_binary Mul (list_ascii_of_string " (+ 1 2)") _
             [" "; "5"]%char _ _).
    - apply parses_space; [reflexivity|].
      apply (parses_paren (list_ascii_of_string "+ 1 2") _ [] _);
        [|reflexivity].
      apply (parses_binary Add [" "; "1"]%char _ [" "; "2"]%char _ _);
        (apply parses_space; [reflexivity|]);
        (apply parses_number; [discriminate|reflexivity|reflexivity]).
    - apply parses_space; [reflexivity|].
      apply parses_number; [discriminate|reflexivity|reflexivity]. }
  split; [exact Hp|].
  exact (proj1 execute_correct _ _ _ 15%Z Hp eq_refl eq_refl).
Defined.

(** C7, as stated, fails: a digit that directly follows a final number is
    not ignored, it is read as part of that number. *)
Lemma trailing_digit_not_ignored :
  well_formed "+ 3 4" (Binary Add (Number ["3"%char]) (Number ["4"%char])) /\
  R.execute "+ 3 4" = Returns 7%Z /\ E.execute "+ 3 4" = Returns 7%Z /\
  R.execute ("+ 3 4" ++ "5") = Returns 48%Z /\
  E.execute ("+ 3 4" ++ "5") = Returns 48%Z.
Proof.
  split; [|repeat split; reflexivity].
  apply (parses_binary Add [" "; "3"]%char _ [" "; "4"]%char _ []);
    (apply parses_space; [reflexivity|]);
    (apply parses_number; [discriminate|reflexivity|reflexivity]).
Qed.

(** C7, amended.  [execute] does not require the whole input to be
    consumed: for every input string consisting of a well-formed expression
    followed by trailing characters that do not begin with a digit where
    the expression ends in one, the parse stops at the end of the
    expression and [execute] returns what it returns on the expression
    alone, the value of the leading expression, the trailing characters
    being ignored; in both parsers. *)
Theorem trailing_text_ignored (program trailing : string) (e : expr) :
  well_formed program e ->
  (ends_with_digit (list_ascii_of_string program) = true ->
   starts_with_digit (list_ascii_of_string trailing) = false) ->
  R.execute (program ++ trailing) = R.execute program /\
  E.execute (program ++ trailing) = E.execute program /\
  R.execute program = match eval64 e with
                      | inr v => Returns v
                      | inl u => Crashes u
                      end /\
  (forall v, eval64 e = inr v ->
             R.classify (program ++ trailing) =
             Done (R.Ok v) (skip (String.length program)
                              (Parser_of (program ++ trailing)))).
Proof.
  intros Hwell Hdigit.
  pose proof (parses_follow _ _ _ Hwell (list_ascii_of_string trailing) Hdigit)
    as Hp.
  assert (Halone : R.execute program = match eval64 e with
                                       | inr v => Returns v
                                       | inl u => Crashes u
                                       end).
  { rewrite <- (append_empty program) at 1.
    apply execute_sound. exact Hwell. }
  assert (Hall : R.execute (program ++ trailing) = R.execute program).
  { rewrite Halone. now apply execute_sound. }
  split; [exact Hall|].
  split; [now rewrite <- !execute_agree|].
  split; [exact Halone|].
  intros v Hv. rewrite (classify_sound _ _ _ Hp), Hv. reflexivity.
Qed.

Lemma trailing_text_ignored_witness :
  well_formed "+ 3 4" (Binary Add (Number ["3"%char]) (Number ["4"%char])) /\
  (ends_with_digit (list_ascii_of_string "+ 3 4") = true ->
   starts_with_digit (list_ascii_of_string " 5 6") = false) /\
  R.execute ("+ 3 4" ++ " 5 6") = R.execute "+ 3 4" /\
  E.execute ("+ 3 4" ++ " 5 6") = E.execute "+ 3 4".
Proof.
  assert (Hw : well_formed "+ 3 4"
                 (Binary Add (Number ["3"%char]) (Number ["4"%char]))).
  { apply (parses_binary Add [" "; "3"]%char _ [" "; "4"]%char _ []);
      (apply parses_space; [reflexivity|]);
      (apply parses_number; [discriminate|reflexivity|reflexivity]). }
  assert (Hd : ends_with_digit (list_ascii_of_string "+ 3 4") = true ->
               starts_with_digit (list_ascii_of_string " 5 6") = false)
    by (intros _; reflexivity).
  split; [exact Hw|]. split; [exact Hd|].
  pose proof (trailing_text_ignored "+ 3 4" " 5 6" _ Hw Hd) as T.
  split; apply T.
Defined.

(** * Further properties of the code *)

(** ** Whitespace *)

(** The maximal run of whitespace splits the text: whitespace before, none
    next. *)
Lemma ws_run_split (l : list ascii) :
  l = ws_run l ++ skipn (List.length (ws_run l)) l /\
  forallb iswspace (ws_run l) = true /\
  match skipn (List.length (ws_run l)) l with
  | [] => True
  | c :: _ => iswspace c = false
  end.
Proof.
  induction l as [|c l (IH1 & IH2 & IH3)]; [now repeat split|].
  cbn [ws_run]. destruct (iswspace c) eqn:Hc.
  - cbn [List.length skipn app forallb]. rewrite Hc.
    repeat split; [now f_equal|exact IH2|exact IH3].
  - cbn [List.length skipn app forallb]. now repeat split.
Qed.

Lemma ws_run_app_all (ws l : list ascii) :
  forallb iswspace ws = true -> ws_run (ws ++ l) = ws ++ ws_run l.
Proof.
  induction ws as [|c ws IH]; [reflexivity|]. cbn [forallb app ws_run].
  intros H. apply andb_true_iff in H. destruct H as [Hc Hws].
  now rewrite Hc, IH.
Qed.

Lemma E_skip_whitespace_eq (fuel : nat) (s : Parser) :
  wf s -> remaining s < fuel ->
  E.skip_whitespace fuel s =
  Done (E.Normal tt) (skip (List.length (ws_run (rest s))) s).
Proof.
  intros Hwf Hfuel.
  now rewrite skip_whitespace_agree, R_skip_whitespace_eq.
Qed.

(** X1. [skip_whitespace] never fails and never throws: from a well-formed
    state it consumes exactly the maximal run of leading whitespace and
    stops at the first other character or at the end of input; run again
    it does nothing.  Both parsers. *)
Theorem skip_whitespace_skips_run (fuel : nat) (s : Parser) :
  wf s -> remaining s < fuel ->
  let ws := ws_run (rest s) in
  let s' := skip (List.length ws) s in
  R.skip_whitespace fuel s = Done tt s' /\
  E.skip_whitespace fuel s = Done (E.Normal tt) s' /\
  rest s = ws ++ rest s' /\
  forallb iswspace ws = true /\
  match rest s' with [] => True | c :: _ => iswspace c = false end /\
  R.skip_whitespace fuel s' = Done tt s' /\
  E.skip_whitespace fuel s' = Done (E.Normal tt) s'.
Proof.
  intros Hwf Hfuel ws s'.
  destruct (ws_run_split (rest s)) as (Hsplit & Hall & Hnext).
  pose proof (wf_after_ws s Hwf) as Hwf'.
  pose proof (later_remaining _ _ (later_skip (List.length ws) s)) as Hrem.
  assert (Hagain : ws_run (rest s') = []).
  { unfold s', ws. rewrite rest_skip. apply ws_run_after. }
  split; [now apply R_skip_whitespace_eq|].
  split; [now apply E_skip_whitespace_eq|].
  split; [unfold s'; now rewrite rest_skip|].
  split; [exact Hall|].
  split; [unfold s'; now rewrite rest_skip|].
  split.
  - rewrite R_skip_whitespace_eq; [|exact Hwf'|fold ws s' in Hrem; lia].
    fold ws s'. rewrite Hagain. cbn [List.length]. now rewrite skip_0.
  - rewrite E_skip_whitespace_eq; [|exact Hwf'|fold ws s' in Hrem; lia].
    fold ws s'. rewrite Hagain. cbn [List.length]. now rewrite skip_0.
Qed.

Lemma skip_whitespace_skips_run_witness :
  wf (skip 1 (Parser_of "+  3 4")) /\
  remaining (skip 1 (Parser_of "+  3 4")) < 6 /\
  R.skip_whitespace 6 (skip 1 (Parser_of "+  3 4"))
  = Done tt (skip 3 (Parser_of "+  3 4")).
Proof.
  assert (Hwf : wf (skip 1 (Parser_of "+  3 4"))) by (split; simpl; lia).
  assert (Hfuel : remaining (skip 1 (Parser_of "+  3 4")) < 6)
    by (unfold remaining; simpl; lia).
  split; [exact Hwf|]. split; [exact Hfuel|].
  exact (proj1 (skip_whitespace_skips_run 6 _ Hwf Hfuel)).
Defined.

(** ** What a successful parse has read *)

Lemma parses_spaces (ws text : list ascii) (e : expr) (follow : list ascii) :
  forallb iswspace ws = true -> parses text e follow ->
  parses (ws ++ text) e follow.
Proof.
  intros Hws Hp. induction ws as [|c ws IH]; [exact Hp|].
  cbn [forallb] in Hws. apply andb_true_iff in Hws. destruct Hws as [Hc Hws].
  cbn [app]. apply parses_space; [exact Hc|]. apply IH, Hws.
Qed.

Lemma operator_of_Some (c : ascii) (op : Op) :
  operator_of c = Some op -> c = op_char op.
Proof.
  unfold operator_of.
  destruct (Ascii.eqb_spec c "+"); [intros H; injection H as <-; assumption|].
  destruct (Ascii.eqb_spec c "-"); [intros H; injection H as <-; assumption|].
  destruct (Ascii.eqb_spec c "*"); [intros H; injection H as <-; assumption|].
  destruct (Ascii.eqb_spec c "/"); [intros H; injection H as <-; assumption|].
  discriminate.
Qed.

(** The text a successful [expression] has consumed is a rendering of an
    expression of the grammar, and the value returned is what the compiled
    arithmetic makes of that expression. *)
Lemma R_expression_complete (fuel : nat) (s s' : Parser) (v : int64) :
  wf s -> remaining s < fuel ->
  R.expression fuel s = Done (R.Ok v) s' ->
  exists text e,
    rest s = text ++ rest s' /\ parses text e (rest s') /\ eval64 e = inr v.
Proof.
  revert s s' v. induction fuel as [|fuel IH]; intros s s' v Hwf Hfuel H;
    [lia|].
  rewrite R_expression_unfold in H by assumption.
  unfold dispatch in H. cbv zeta in H.
  destruct (ws_run_split (rest s)) as (Hsplit & Hall & _).
  pose proof (wf_after_ws s Hwf) as Hwf1.
  pose proof (later_remaining _ _ (later_skip (List.length (ws_run (rest s))) s))
    as Hrem1.
  rewrite <- rest_skip in Hsplit.
  set (s1 := skip (List.length (ws_run (rest s))) s) in *.
  destruct (rest s1) as [|c l] eqn:Hr1; [discriminate|].
  enough (Hgoal : exists text e,
             c :: l = text ++ rest s' /\ parses text e (rest s') /\
             eval64 e = inr v).
  { destruct Hgoal as (text & e & Heq & Hp & Hv).
    exists (ws_run (rest s) ++ text), e. split; [|split].
    - etransitivity; [exact Hsplit|]. rewrite Heq. apply app_assoc.
    - now apply parses_spaces.
    - exact Hv. }
  destruct (rest_cons s1 c l Hwf1 Hr1) as (_ & _ & Hr2 & Hwf2).
  pose proof (remaining_pos s1 c l Hwf1 Hr1) as Hpos.
  destruct (Ascii.eqb c "(") eqn:Hparen.
  - apply Ascii.eqb_eq in Hparen. subst c.
    assert (Hwf3 : wf (skip (List.length (ws_run l)) (skip 1 s1))).
    { rewrite <- Hr2. apply wf_after_ws, Hwf2. }
    destruct (R.expression fuel (skip (List.length (ws_run l)) (skip 1 s1)))
      as [[a|k] s3|u|] eqn:Hinner; try discriminate.
    destruct (IH _ _ _ Hwf3 ltac:(rewrite !remaining_skip; lia) Hinner)
      as (ti & ei & Hri & Hpi & Hvi).
    rewrite rest_skip, Hr2 in Hri.
    destruct (ws_run_split l) as (Hl & Hlall & _). rewrite Hri in Hl.
    destruct (ws_run_split (rest s3)) as (H3 & H3all & _).
    rewrite <- rest_skip in H3.
    set (w2 := ws_run l) in *. set (w3 := ws_run (rest s3)) in *.
    destruct (rest (skip (List.length w3) s3)) as [|x l'] eqn:Hr4;
      [discriminate|].
    destruct (Ascii.eqb x ")") eqn:Hx; [|discriminate].
    apply Ascii.eqb_eq in Hx. subst x. injection H as <- <-.
    assert (Hrest : rest (skip 1 (skip (List.length w3) s3)) = l')
      by (now rewrite rest_skip, Hr4).
    rewrite Hrest.
    exists ("("%char :: (w2 ++ ti) ++ w3 ++ [")"%char]), (Paren ei).
    split; [|split; [|exact Hvi]].
    + cbn [app]. f_equal. etransitivity; [exact Hl|].
      rewrite H3, <- !app_assoc. reflexivity.
    + apply parses_paren; [|exact H3all].
      apply parses_spaces; [exact Hlall|]. now rewrite <- H3.
  - destruct (isdigit c) eqn:Hdigit.
    + injection H as <- <-.
      destruct (digit_run_split (c :: l)) as (Hd & Hdall & Hdnext).
      rewrite rest_skip, Hr1.
      exists (digit_run (c :: l)), (Number (digit_run (c :: l))).
      split; [exact Hd|]. split; [|reflexivity].
      apply parses_number; [|exact Hdall|exact Hdnext].
      cbn [digit_run]. rewrite Hdigit. discriminate.
    + destruct (operator_of c) as [op|] eqn:Hop; [|discriminate].
      apply operator_of_Some in Hop. subst c.
      destruct (R.expression fuel (skip 1 s1)) as [[a|k] s3|u|] eqn:Hleft;
        try discriminate.
      destruct (preserves_done _ _ _ _ (preserves_R_expression fuel) Hwf2 Hleft)
        as [Hwf3 Hl3].
      apply later_remaining in Hl3. rewrite remaining_skip in Hl3.
      destruct (IH _ _ _ Hwf2 ltac:(rewrite remaining_skip; lia) Hleft)
        as (t1 & e1 & Hr1' & Hp1 & Hv1).
      rewrite Hr2 in Hr1'.
      destruct (R.expression fuel s3) as [[b|k] s4|u|] eqn:Hright;
        try discriminate.
      destruct (IH _ _ _ Hwf3 ltac:(lia) Hright)
        as (t2 & e2 & Hr2' & Hp2 & Hv2).
      destruct (apply_op op a b) as [u|v'] eqn:Happly; [discriminate|].
      injection H as <- <-.
      exists (op_char op :: t1 ++ t2), (Binary op e1 e2).
      split; [|split].
      * cbn [app]. f_equal. etransitivity; [exact Hr1'|].
        rewrite Hr2'. apply app_assoc.
      * apply parses_binary; [now rewrite <- Hr2'|exact Hp2].
      * cbn [eval64]. now rewrite Hv1, Hv2.
Qed.

(** X2. The parsers accept the grammar and nothing else.  From a
    well-formed state with a sufficient bound, [expression] succeeds with
    value [v] and leaves the text [follow] unread exactly if the text it
    consumed is a rendering of some expression of the grammar (whitespace
    allowed before each token, numbers being maximal runs of digits) whose
    64-bit evaluation is [v].  Both parsers. *)
Theorem expression_accepts_exactly_grammar (fuel : nat) (s : Parser)
  (v : int64) (follow : list ascii) :
  wf s -> remaining s < fuel ->
  ((exists s', R.expression fuel s = Done (R.Ok v) s' /\ rest s' = follow) <->
   (exists text e,
       rest s = text ++ follow /\ parses text e follow /\ eval64 e = inr v))
  /\
  ((exists s', E.expression fuel s = Done (E.Normal v) s' /\ rest s' = follow)
   <->
   (exists text e,
       rest s = text ++ follow /\ parses text e follow /\ eval64 e = inr v)).
Proof.
  intros Hwf Hfuel.
  assert (HR : (exists s', R.expression fuel s = Done (R.Ok v) s' /\
                           rest s' = follow) <->
               (exists text e, rest s = text ++ follow /\
                               parses text e follow /\ eval64 e = inr v)).
  { split.
    - intros (s' & Hrun & <-).
      exact (R_expression_complete fuel s s' v Hwf Hfuel Hrun).
    - intros (text & e & Hr & Hp & Hv).
      exists (skip (List.length text) s). split.
      + rewrite (R_expression_sound _ _ _ Hp fuel s Hwf Hr Hfuel), Hv.
        reflexivity.
      + apply (skip_prefix s text follow Hwf Hr). }
  split; [exact HR|].
  rewrite <- HR. split; intros (s' & Hrun & Hrest); exists s'.
  - split; [|exact Hrest]. now rewrite expression_agree, Hrun.
  - split; [|exact Hrest]. apply reify_Ok. now rewrite <- expression_agree.
Qed.

Lemma expression_accepts_exactly_grammar_witness :
  wf (Parser_of "(7) x") /\ remaining (Parser_of "(7) x") < 6 /\
  exists text e,
    rest (Parser_of "(7) x") = text ++ [" "; "x"]%char /\
    parses text e [" "; "x"]%char /\ eval64 e = inr 7%Z.
Proof.
  assert (Hwf : wf (Parser_of "(7) x")) by (split; simpl; lia).
  assert (Hfuel : remaining (Parser_of "(7) x") < 6)
    by (unfold remaining; simpl; lia).
  split; [exact Hwf|]. split; [exact Hfuel|].
  apply (proj1 (proj1 (expression_accepts_exactly_grammar 6 _ 7%Z
                         [" "; "x"]%char Hwf Hfuel))).
  exists (skip 3 (Parser_of "(7) x")). split; reflexivity.
Defined.

(** ** The unread text decides the parse *)

Lemma same_rest_remaining (s1 s2 : Parser) :
  wf s1 -> wf s2 -> rest s1 = rest s2 -> remaining s2 = remaining s1.
Proof.
  intros Hwf1 Hwf2 Hr.
  now rewrite <- (length_rest s1 Hwf1), <- (length_rest s2 Hwf2), Hr.
Qed.

Lemma same_rest_skip (n : nat) (s1 s2 : Parser) :
  rest s1 = rest s2 -> rest (skip n s1) = rest (skip n s2).
Proof. intros Hr. now rewrite !rest_skip, Hr. Qed.

Lemma same_rest_wf_skip (n : nat) (s1 s2 : Parser) :
  wf s1 -> wf s2 -> rest s1 = rest s2 -> wf (skip n s1) -> wf (skip n s2).
Proof.
  intros Hwf1 Hwf2 Hr Hs.
  pose proof (same_rest_remaining s1 s2 Hwf1 Hwf2 Hr) as Hrem.
  apply wf_skip; [exact Hwf2|].
  unfold wf, remaining, skip in *. simpl in *. lia.
Qed.

(** One run of the body from two states with the same unread text, the
    recursive entry point being local for shorter texts. *)
Lemma dispatch_local (rec : M (R.Result int64)) (s1 s2 : Parser) :
  wf s1 -> wf s2 -> rest s1 = rest s2 ->
  preserves rec ->
  (forall t1 t2,
      wf t1 -> wf t2 -> rest t1 = rest t2 -> remaining t1 < remaining s1 ->
      same_outcome (rec t1) (rec t2)) ->
  same_outcome (dispatch rec s1) (dispatch rec s2).
Proof.
  intros Hwf1 Hwf2 Hr Hpres Hrec. unfold dispatch. cbv zeta.
  rewrite <- Hr.
  pose proof (wf_after_ws s1 Hwf1) as Hwa1.
  pose proof (same_rest_wf_skip _ s1 s2 Hwf1 Hwf2 Hr Hwa1) as Hwa2.
  pose proof (same_rest_skip (List.length (ws_run (rest s1))) s1 s2 Hr) as Hra.
  set (a1 := skip (List.length (ws_run (rest s1))) s1) in *.
  set (a2 := skip (List.length (ws_run (rest s1))) s2) in *.
  rewrite <- Hra.
  destruct (rest a1) as [|c l] eqn:Hr1; [split; [reflexivity|congruence]|].
  pose proof (fun n => remaining_inner s1 c l n Hwf1 Hr1) as Hinner.
  destruct (rest_cons a1 c l Hwa1 Hr1) as (_ & _ & Hrb1 & Hwb1).
  assert (Hr2 : rest a2 = c :: l) by congruence.
  destruct (rest_cons a2 c l Hwa2 Hr2) as (_ & _ & Hrb2 & Hwb2).
  destruct (Ascii.eqb c "(").
  - assert (Hwt1 : wf (skip (List.length (ws_run l)) (skip 1 a1))).
    { rewrite <- Hrb1. apply wf_after_ws, Hwb1. }
    assert (Hwt2 : wf (skip (List.length (ws_run l)) (skip 1 a2))).
    { rewrite <- Hrb2. apply wf_after_ws, Hwb2. }
    specialize (Hrec _ _ Hwt1 Hwt2
                  ltac:(rewrite !rest_skip; congruence)
                  (Hinner _ (or_introl Hwt1))).
    destruct (rec (skip (List.length (ws_run l)) (skip 1 a1)))
      as [[v|k] s3|u|];
      destruct (rec (skip (List.length (ws_run l)) (skip 1 a2)))
        as [[v'|k'] s3'|u'|];
      cbn [same_outcome] in *; try contradiction;
      try discriminate (proj1 Hrec);
      try exact Hrec.
    destruct Hrec as [Hv Hr3]. injection Hv as <-. rewrite <- Hr3.
    pose proof (same_rest_skip (List.length (ws_run (rest s3))) s3 s3' Hr3)
      as Hr4.
    rewrite <- Hr4.
    destruct (rest (skip (List.length (ws_run (rest s3))) s3))
      as [|x l'] eqn:Hr5; [split; [reflexivity|congruence]|].
    destruct (Ascii.eqb x ")"); (split; [reflexivity|]);
      apply same_rest_skip; congruence.
  - destruct (isdigit c).
    + split; [reflexivity|]. apply same_rest_skip; congruence.
    + destruct (operator_of c) as [op|].
      2:{ split; [reflexivity|]. apply same_rest_skip; congruence. }
      pose proof (Hinner 0) as Hlt. rewrite skip_0 in Hlt.
      specialize (Hlt (or_introl Hwb1)).
      change (remaining (skip 1 a1) < remaining s1) in Hlt.
      pose proof (Hrec _ _ Hwb1 Hwb2 ltac:(congruence) Hlt) as Hleft.
      destruct (rec (skip 1 a1)) as [[a|k] s3|u|] eqn:E1;
        destruct (rec (skip 1 a2)) as [[a'|k'] s3'|u'|] eqn:E2;
        cbn [same_outcome] in *; try contradiction;
        try discriminate (proj1 Hleft);
        try exact Hleft.
      destruct Hleft as [Hv Hr3]. injection Hv as <-.
      destruct (preserves_done _ _ _ _ Hpres Hwb1 E1) as [Hw3 Hl3].
      destruct (preserves_done _ _ _ _ Hpres Hwb2 E2) as [Hw3' _].
      apply later_remaining in Hl3.
      pose proof (Hrec _ _ Hw3 Hw3' Hr3 ltac:(lia)) as Hright.
      destruct (rec s3) as [[b|k] s4|u|];
        destruct (rec s3') as [[b'|k'] s4'|u'|];
        cbn [same_outcome] in *; try contradiction;
        try discriminate (proj1 Hright);
        try exact Hright.
      destruct Hright as [Hv Hr4]. injection Hv as <-.
      destruct (apply_op op a b); [reflexivity|now split].
Qed.

Lemma R_expression_local (fuel : nat) (s1 s2 : Parser) :
  wf s1 -> wf s2 -> rest s1 = rest s2 -> remaining s1 < fuel ->
  same_outcome (R.expression fuel s1) (R.expression fuel s2).
Proof.
  revert s1 s2.
  induction fuel as [|fuel IH]; intros s1 s2 Hwf1 Hwf2 Hr Hfuel; [lia|].
  pose proof (same_rest_remaining s1 s2 Hwf1 Hwf2 Hr) as Hrem.
  rewrite !R_expression_unfold by (assumption || lia).
  apply dispatch_local; try assumption.
  - apply preserves_R_expression.
  - intros t1 t2 Hw1 Hw2 Ht Hlt. apply IH; (assumption || lia).
Qed.

Lemma same_outcome_reify {A} (r1 r2 : run (E.completion A)) :
  same_outcome (reify r1) (reify r2) -> same_outcome r1 r2.
Proof.
  destruct r1 as [[a|[k]] s|u|], r2 as [[a'|[k']] s'|u'|];
    cbn [same_outcome reify reify_completion E.kind];
    try contradiction; try exact (fun H => H);
    intros [Hv Hs]; try discriminate Hv;
    (split; [|exact Hs]); injection Hv; intros; subst; reflexivity.
Qed.

Lemma E_expression_local (fuel : nat) (s1 s2 : Parser) :
  wf s1 -> wf s2 -> rest s1 = rest s2 -> remaining s1 < fuel ->
  same_outcome (E.expression fuel s1) (E.expression fuel s2).
Proof.
  intros Hwf1 Hwf2 Hr Hfuel. apply same_outcome_reify.
  rewrite <- !expression_agree. now apply R_expression_local.
Qed.

(** X3. A parse depends on the unread text only: started from two
    well-formed states (of the same or of different inputs) that have the
    same text left to read, [expression] ends alike in both: with the same
    value or the same error kind and the same text left unread, or in the
    same undefined division.  What was read before, and where in the input
    the cursor stands, has no influence.  Both parsers. *)
Theorem expression_depends_on_unread_text (fuel : nat) (s1 s2 : Parser) :
  wf s1 -> wf s2 -> rest s1 = rest s2 -> remaining s1 < fuel ->
  same_outcome (R.expression fuel s1) (R.expression fuel s2) /\
  same_outcome (E.expression fuel s1) (E.expression fuel s2).
Proof.
  intros Hwf1 Hwf2 Hr Hfuel.
  split; [now apply R_expression_local|now apply E_expression_local].
Qed.

Lemma expression_depends_on_unread_text_witness :
  wf (skip 4 (Parser_of "+ 1 (* 2 3)")) /\ wf (Parser_of "(* 2 3)") /\
  rest (skip 4 (Parser_of "+ 1 (* 2 3)")) = rest (Parser_of "(* 2 3)") /\
  remaining (skip 4 (Parser_of "+ 1 (* 2 3)")) < 8 /\
  same_outcome (R.expression 8 (skip 4 (Parser_of "+ 1 (* 2 3)")))
               (R.expression 8 (Parser_of "(* 2 3)")).
Proof.
  assert (Hwf1 : wf (skip 4 (Parser_of "+ 1 (* 2 3)")))
    by (split; simpl; lia).
  assert (Hwf2 : wf (Parser_of "(* 2 3)")) by (split; simpl; lia).
  assert (Hr : rest (skip 4 (Parser_of "+ 1 (* 2 3)"))
               = rest (Parser_of "(* 2 3)")) by reflexivity.
  assert (Hfuel : remaining (skip 4 (Parser_of "+ 1 (* 2 3)")) < 8)
    by (unfold remaining; simpl; lia).
  repeat (split; [assumption|]).
  exact (proj1 (expression_depends_on_unread_text 8 _ _ Hwf1 Hwf2 Hr Hfuel)).
Defined.

(** ** Leading whitespace *)

Lemma ws_run_skipn (k : nat) (l : list ascii) :
  k <= List.length (ws_run l) ->
  List.length (ws_run (skipn k l)) + k = List.length (ws_run l).
Proof.
  revert l. induction k as [|k IH]; intros l Hk; [cbn [skipn]; lia|].
  destruct l as [|c l]; [cbn [ws_run List.length] in Hk; lia|].
  cbn [ws_run] in *. destruct (iswspace c); cbn [List.length skipn] in *;
    [|lia].
  specialize (IH l ltac:(lia)). lia.
Qed.

(** Starting after some of the leading whitespace changes nothing. *)
Lemma R_expression_skip_spaces (k fuel : nat) (s : Parser) :
  wf s -> remaining s < fuel -> k <= List.length (ws_run (rest s)) ->
  R.expression fuel (skip k s) = R.expression fuel s.
Proof.
  intros Hwf Hfuel Hk.
  pose proof (length_ws_run (rest s)) as Hlen.
  rewrite (length_rest s Hwf) in Hlen.
  assert (Hwfk : wf (skip k s)) by (apply wf_skip; [exact Hwf|lia]).
  rewrite <- (R_expression_skip_ws fuel s) by assumption.
  rewrite <- (R_expression_skip_ws fuel (skip k s));
    [|exact Hwfk|rewrite remaining_skip; lia].
  rewrite skip_skip, rest_skip. f_equal. f_equal.
  now apply ws_run_skipn.
Qed.

Lemma same_outcome_public (r1 r2 : run (R.Result int64)) :
  same_outcome r1 r2 ->
  failure r1 = failure r2 /\
  match r1 with
  | Done (R.Ok ok) _ => Returns ok
  | Done (R.Err _) _ => Returns 0%Z
  | Undef u => Crashes u
  | OutOfFuel => Unfinished
  end =
  match r2 with
  | Done (R.Ok ok) _ => Returns ok
  | Done (R.Err _) _ => Returns 0%Z
  | Undef u => Crashes u
  | OutOfFuel => Unfinished
  end.
Proof.
  destruct r1 as [[v|k] s|u|], r2 as [[v'|k'] s'|u'|];
    cbn [same_outcome failure]; try contradiction;
    try (intros [Hv _]; discriminate Hv).
  - intros [Hv _]. injection Hv as <-. now split.
  - intros [Hv _]. injection Hv as <-. now split.
  - intros <-. now split.
  - now split.
Qed.

Lemma R_execute_eq (program : string) :
  R.execute program =
  match R.classify program with
  | Done (R.Ok ok) _ => Returns ok
  | Done (R.Err _) _ => Returns 0%Z
  | Undef u => Crashes u
  | OutOfFuel => Unfinished
  end.
Proof.
  unfold R.execute. destruct (R.classify program) as [[v|k] s|u|];
    reflexivity.
Qed.

Lemma classify_leading_whitespace (ws program : string) :
  forallb iswspace (list_ascii_of_string ws) = true ->
  same_outcome (R.classify (ws ++ program)) (R.classify program).
Proof.
  intros Hws. unfold R.classify.
  pose proof (wf_Parser_of (ws ++ program)) as HwfA.
  pose proof (wf_Parser_of program) as HwfB.
  pose proof (fuel_for_enough (ws ++ program) _ (le_n _)) as HfuelA.
  pose proof (rest_Parser_of (ws ++ program)) as HrA.
  rewrite list_ascii_of_string_app in HrA.
  set (k := List.length (list_ascii_of_string ws)).
  assert (Hk : k <= List.length (ws_run (rest (Parser_of (ws ++ program))))).
  { rewrite HrA, ws_run_app_all by exact Hws. rewrite length_app.
    unfold k. lia. }
  rewrite <- (R_expression_skip_spaces k) by assumption.
  destruct (skip_prefix _ _ _ HwfA HrA) as (Hwfk & Hrk & Hrem).
  fold k in Hwfk, Hrk.
  rewrite (R_expression_fuel (fuel_for program)
             (fuel_for (ws ++ program)) (Parser_of program)).
  - apply R_expression_local; [exact Hwfk|exact HwfB| |].
    + now rewrite Hrk, rest_Parser_of.
    + rewrite remaining_skip. lia.
  - exact HwfB.
  - apply fuel_for_enough, le_n.
  - rewrite remaining_Parser_of. unfold fuel_for.
    rewrite length_append. lia.
Qed.

(** X4. Whitespace before the program is insignificant, for every program,
    well-formed or not: with any run of whitespace put in front, [execute]
    gives the same public result and the parse the same classification, in
    both parsers. *)
Theorem leading_whitespace_ignored (ws program : string) :
  forallb iswspace (list_ascii_of_string ws) = true ->
  R.execute (ws ++ program) = R.execute program /\
  E.execute (ws ++ program) = E.execute program /\
  failure (R.classify (ws ++ program)) = failure (R.classify program) /\
  thrown (E.classify (ws ++ program)) = thrown (E.classify program).
Proof.
  intros Hws.
  destruct (same_outcome_public _ _ (classify_leading_whitespace ws program Hws))
    as [Hfail Hpub].
  rewrite <- !R_execute_eq in Hpub.
  split; [exact Hpub|].
  split; [now rewrite <- !execute_agree|].
  split; [exact Hfail|].
  unfold thrown. now rewrite <- !classify_agree.
Qed.

Lemma leading_whitespace_ignored_witness :
  forallb iswspace (list_ascii_of_string "  ") = true /\
  R.execute ("  " ++ "& 1") = R.execute "& 1" /\
  E.execute ("  " ++ "& 1") = E.execute "& 1".
Proof.
  assert (Hws : forallb iswspace (list_ascii_of_string "  ") = true)
    by reflexivity.
  split; [exact Hws|].
  pose proof (leading_whitespace_ignored "  " "& 1" Hws) as T.
  split; apply T.
Defined.

(** ** How results compose *)

Lemma execute_whole (program : string) (e : expr) :
  well_formed program e ->
  R.execute program = match eval64 e with
                      | inr v => Returns v
                      | inl u => Crashes u
                      end.
Proof.
  intros Hw. rewrite <- (append_empty program) at 1.
  apply execute_sound. exact Hw.
Qed.

Lemma starts_with_digit_spaces (ws follow : list ascii) :
  forallb iswspace ws = true -> starts_with_digit follow = false ->
  starts_with_digit (ws ++ follow) = false.
Proof.
  intros Hws Hf. destruct ws as [|w ws]; [exact Hf|].
  cbn [app starts_with_digit forallb] in *.
  apply andb_true_iff in Hws. destruct Hws as [Hw _].
  destruct (isdigit w) eqn:Hd; [|reflexivity].
  apply isdigit_not_space in Hd. congruence.
Qed.

Lemma well_formed_paren (ws1 w ws2 : string) (e : expr) :
  well_formed w e ->
  forallb iswspace (list_ascii_of_string ws1) = true ->
  forallb iswspace (list_ascii_of_string ws2) = true ->
  well_formed ("(" ++ ws1 ++ w ++ ws2 ++ ")") (Paren e).
Proof.
  intros Hw H1 H2. unfold well_formed in *.
  cbn [String.append list_ascii_of_string].
  rewrite !list_ascii_of_string_app. cbn [list_ascii_of_string].
  rewrite (app_assoc (list_ascii_of_string ws1)).
  apply parses_paren; [|exact H2].
  apply parses_spaces; [exact H1|].
  apply (parses_follow _ _ _ Hw). intros _.
  now apply starts_with_digit_spaces.
Qed.

Lemma well_formed_binary (op : Op) (ws1 w1 ws2 w2 : string) (e1 e2 : expr) :
  well_formed w1 e1 -> well_formed w2 e2 ->
  forallb iswspace (list_ascii_of_string ws1) = true ->
  forallb iswspace (list_ascii_of_string ws2) = true ->
  ws2 <> EmptyString ->
  well_formed (String (op_char op) (ws1 ++ w1 ++ ws2 ++ w2))
    (Binary op e1 e2).
Proof.
  intros Hw1 Hw2 H1 H2 Hne. unfold well_formed in *.
  cbn [list_ascii_of_string].
  rewrite !list_ascii_of_string_app.
  rewrite (app_assoc (list_ascii_of_string ws1)).
  apply parses_binary.
  - apply parses_spaces; [exact H1|].
    apply (parses_follow _ _ _ Hw1). intros _. rewrite app_nil_r.
    destruct ws2 as [|c ws2]; [congruence|].
    cbn [list_ascii_of_string app starts_with_digit forallb] in *.
    apply andb_true_iff in H2. destruct H2 as [Hc _].
    destruct (isdigit c) eqn:Hd; [|reflexivity].
    apply isdigit_not_space in Hd. congruence.
  - now apply parses_spaces.
Qed.

(** X5. Parentheses are transparent: a well-formed expression put in
    parentheses, with any whitespace inside them, makes [execute] return
    what it returns on the expression itself, in both parsers. *)
Theorem parentheses_transparent (ws1 w ws2 : string) (e : expr) :
  well_formed w e ->
  forallb iswspace (list_ascii_of_string ws1) = true ->
  forallb iswspace (list_ascii_of_string ws2) = true ->
  R.execute ("(" ++ ws1 ++ w ++ ws2 ++ ")") = R.execute w /\
  E.execute ("(" ++ ws1 ++ w ++ ws2 ++ ")") = E.execute w.
Proof.
  intros Hw H1 H2.
  assert (HR : R.execute ("(" ++ ws1 ++ w ++ ws2 ++ ")") = R.execute w).
  { rewrite (execute_whole _ _ (well_formed_paren ws1 w ws2 e Hw H1 H2)).
    now rewrite (execute_whole w e Hw). }
  split; [exact HR|]. now rewrite <- !execute_agree.
Qed.

Lemma parentheses_transparent_witness :
  well_formed "7" (Number ["7"%char]) /\
  R.execute ("(" ++ " " ++ "7" ++ "" ++ ")") = R.execute "7" /\
  E.execute ("(" ++ " " ++ "7" ++ "" ++ ")") = E.execute "7".
Proof.
  assert (Hw : well_formed "7" (Number ["7"%char]))
    by (apply parses_number; [discriminate|reflexivity|reflexivity]).
  split; [exact Hw|].
  exact (parentheses_transparent " " "7" "" _ Hw eq_refl eq_refl).
Defined.

(** X6. An operator applied to two well-formed operands composes their
    results: [execute] on the operator character followed by the two
    operands (whitespace allowed before the first, required before the
    second) returns the operator applied in 64-bit arithmetic to what
    [execute] returns on each operand; a crash of the left operand, else of
    the right one, else of the division itself, is the result.  Both
    parsers. *)
Theorem operator_composes (op : Op) (ws1 w1 ws2 w2 : string) (e1 e2 : expr) :
  well_formed w1 e1 -> well_formed w2 e2 ->
  forallb iswspace (list_ascii_of_string ws1) = true ->
  forallb iswspace (list_ascii_of_string ws2) = true ->
  ws2 <> EmptyString ->
  R.execute (String (op_char op) (ws1 ++ w1 ++ ws2 ++ w2)) =
  combine op (R.execute w1) (R.execute w2) /\
  E.execute (String (op_char op) (ws1 ++ w1 ++ ws2 ++ w2)) =
  combine op (E.execute w1) (E.execute w2).
Proof.
  intros Hw1 Hw2 H1 H2 Hne.
  assert (HR : R.execute (String (op_char op) (ws1 ++ w1 ++ ws2 ++ w2)) =
               combine op (R.execute w1) (R.execute w2)).
  { rewrite (execute_whole _ _
               (well_formed_binary op ws1 w1 ws2 w2 e1 e2 Hw1 Hw2 H1 H2 Hne)).
    rewrite (execute_whole w1 e1 Hw1), (execute_whole w2 e2 Hw2).
    cbn [eval64]. destruct (eval64 e1) as [u|l]; [reflexivity|].
    destruct (eval64 e2) as [u|r]; [reflexivity|].
    cbn [combine]. destruct (apply_op op l r); reflexivity. }
  split; [exact HR|]. now rewrite <- !execute_agree.
Qed.

Lemma operator_composes_witness :
  well_formed "(+ 1 2)"
    (Paren (Binary Add (Number ["1"%char]) (Number ["2"%char]))) /\
  well_formed "5" (Number ["5"%char]) /\
  R.execute (String (op_char Mul) ("" ++ "(+ 1 2)" ++ " " ++ "5")) =
  combine Mul (R.execute "(+ 1 2)") (R.execute "5").
Proof.
  assert (Hw1 : well_formed "(+ 1 2)"
                  (Paren (Binary Add (Number ["1"%char]) (Number ["2"%char])))).
  { apply (parses_paren (list_ascii_of_string "+ 1 2") _ [] []);
      [|reflexivity].
    apply (parses_binary Add [" "; "1"]%char _ [" "; "2"]%char _ _);
      (apply parses_space; [reflexivity|]);
      (apply parses_number; [discriminate|reflexivity|reflexivity]). }
  assert (Hw2 : well_formed "5" (Number ["5"%char]))
    by (apply parses_number; [discriminate|reflexivity|reflexivity]).
  split; [exact Hw1|]. split; [exact Hw2|].
  refine (proj1 (operator_composes Mul "" "(+ 1 2)" " " "5" _ _
                   Hw1 Hw2 eq_refl eq_refl _)).
  discriminate.
Defined.

(** ** Cut-off programs *)

Lemma R_expression_at_end (fuel : nat) (s : Parser) :
  wf s -> rest s = [] -> 0 < fuel ->
  R.expression fuel s = Done (R.Err UnexpectedEOF) s.
Proof.
  intros Hwf Hr Hfuel. destruct fuel as [|fuel]; [lia|].
  rewrite R_expression_unfold; [|exact Hwf|].
  - unfold dispatch. cbv zeta. rewrite Hr. cbn [ws_run List.length].
    now rewrite skip_0, Hr.
  - rewrite <- (length_rest s Hwf), Hr. cbn [List.length]. lia.
Qed.

Lemma R_expression_space (fuel : nat) (s : Parser) (c : ascii)
  (l : list ascii) :
  wf s -> rest s = c :: l -> iswspace c = true -> remaining s < fuel ->
  R.expression fuel s = R.expression fuel (skip 1 s).
Proof.
  intros Hwf Hr Hc Hfuel. symmetry.
  apply R_expression_skip_spaces; [exact Hwf|exact Hfuel|].
  rewrite Hr. cbn [ws_run]. rewrite Hc. cbn [List.length]. lia.
Qed.

Lemma prefix_cons (t more : list ascii) (c : ascii) (l : list ascii) :
  t ++ more = c :: l -> t = [] \/ exists t1, t = c :: t1 /\ t1 ++ more = l.
Proof.
  destruct t as [|x t1]; [now left|]. cbn [app]. intros H.
  injection H as -> H. right. now exists t1.
Qed.

Lemma starts_with_digit_prefix (m more l : list ascii) :
  m ++ more = l -> starts_with_digit l = false ->
  starts_with_digit m = false.
Proof.
  intros <- H. destruct m as [|x m]; [reflexivity|exact H].
Qed.

Lemma forallb_prefix (f : ascii -> bool) (t more : list ascii) :
  forallb f (t ++ more) = true -> forallb f t = true.
Proof. rewrite forallb_app. intros H. now apply andb_true_iff in H. Qed.

(** Parsing a prefix of a rendering runs out of input: it never meets a
    character it rejects. *)
Lemma R_expression_truncated (text : list ascii) (e : expr)
  (follow : list ascii) :
  parses text e follow ->
  forall t more, t ++ more = text ->
  forall fuel s,
    wf s -> rest s = t -> remaining s < fuel ->
    ran_out (R.expression fuel s).
Proof.
  induction 1 as [c text e follow Hc Hp IH
                 |digits follow Hne Hd Hf
                 |text e ws follow Hp IH Hws
                 |op text1 e1 text2 e2 follow Hp1 IH1 Hp2 IH2];
    intros t more Ht fuel s Hwf Hr Hfuel;
    (apply prefix_cons in Ht || idtac).
  - (* leading whitespace *)
    destruct Ht as [->|(t1 & -> & Ht1)].
    { rewrite R_expression_at_end by (assumption || lia). reflexivity. }
    pose proof (remaining_pos s _ _ Hwf Hr) as Hrem.
    destruct (rest_cons s _ _ Hwf Hr) as (_ & _ & Hr1 & Hwf1).
    rewrite (R_expression_space fuel s c t1) by assumption.
    apply (IH t1 more Ht1); [exact Hwf1|exact Hr1|].
    rewrite remaining_skip. lia.
  - (* a number *)
    destruct digits as [|d digits]; [congruence|].
    apply prefix_cons in Ht. destruct Ht as [->|(t1 & -> & Ht1)].
    { rewrite R_expression_at_end by (assumption || lia). reflexivity. }
    assert (Hall : forallb isdigit (d :: t1) = true).
    { apply (forallb_prefix isdigit (d :: t1) more).
      cbn [app]. now rewrite Ht1. }
    pose proof Hall as Hd1. cbn [forallb] in Hd1.
    apply andb_true_iff in Hd1. destruct Hd1 as [Hd1 _].
    destruct fuel as [|fuel]; [lia|].
    rewrite R_expression_unfold by assumption. unfold dispatch. cbv zeta.
    rewrite Hr. cbn [ws_run]. rewrite (isdigit_not_space d Hd1).
    cbn [List.length]. rewrite skip_0, Hr.
    destruct (Ascii.eqb d "(") eqn:Hparen.
    { apply isdigit_not_paren in Hparen. congruence. }
    rewrite Hd1.
    rewrite <- (app_nil_r (d :: t1)) at 1 2.
    rewrite digit_run_app by (exact Hall || reflexivity).
    cbn [ran_out]. rewrite rest_skip, Hr. apply skipn_all.
  - (* a parenthesised expression *)
    destruct Ht as [->|(t1 & -> & Ht1)].
    { rewrite R_expression_at_end by (assumption || lia). reflexivity. }
    pose proof (remaining_pos s _ _ Hwf Hr) as Hrem.
    destruct (rest_cons s _ _ Hwf Hr) as (_ & _ & Hr1 & Hwf1).
    destruct fuel as [|fuel]; [lia|].
    rewrite R_expression_unfold by assumption. unfold dispatch. cbv zeta.
    rewrite Hr. cbn [ws_run]. change (iswspace "(") with false. cbv iota.
    cbn [List.length]. rewrite skip_0, Hr.
    change (Ascii.eqb "(" "(") with true. cbv iota.
    assert (Hsame : R.expression fuel (skip (List.length (ws_run t1)) (skip 1 s))
                    = R.expression fuel (skip 1 s)).
    { rewrite <- Hr1 at 1.
      apply R_expression_skip_ws; [exact Hwf1|rewrite remaining_skip; lia]. }
    rewrite Hsame.
    apply app_eq_app in Ht1. destruct Ht1 as (m & [[Ht1 Hm]|[Ht1 Hm]]).
    + (* the operand is complete *)
      subst t1.
      assert (Hm0 : starts_with_digit m = false).
      { apply (starts_with_digit_prefix m more (ws ++ [")"%char]));
          [now symmetry|].
        now apply starts_with_digit_spaces. }
      pose proof (parses_follow _ _ _ Hp m (fun _ => Hm0)) as Hpm.
      rewrite (R_expression_sound _ _ _ Hpm fuel (skip 1 s) Hwf1 Hr1)
        by (rewrite remaining_skip; lia).
      destruct (eval64 e) as [u|v]; [exact I|].
      destruct (skip_prefix _ _ _ Hwf1 Hr1) as (Hwf3 & Hr3 & _).
      symmetry in Hm. apply app_eq_app in Hm.
      destruct Hm as (n & [[Hm Hn]|[Hm Hn]]).
      * (* cut inside the closing parenthesis or right after it *)
        subst m. symmetry in Hn. apply prefix_cons in Hn.
        destruct Hn as [->|(n1 & -> & Hn1)].
        -- rewrite Hr3, app_nil_r, ws_run_all by exact Hws.
           destruct (skip_prefix _ _ _ Hwf3 Hr3) as (_ & Hr4 & _).
           rewrite Hr4. reflexivity.
        -- apply app_eq_nil in Hn1. destruct Hn1 as [-> ->].
           rewrite Hr3.
           rewrite ws_run_app by (exact Hws || reflexivity).
           destruct (skip_prefix _ _ _ Hwf3 Hr3) as (_ & Hr4 & _).
           rewrite Hr4. change (Ascii.eqb ")" ")") with true. cbv iota.
           cbn [ran_out]. now rewrite rest_skip, Hr4.
      * (* cut inside the whitespace before it *)
        subst ws. rewrite forallb_app in Hws.
        apply andb_true_iff in Hws. destruct Hws as [Hwm _].
        rewrite Hr3, ws_run_all by exact Hwm.
        destruct (skip_prefix _ m [] Hwf3) as (_ & Hr4 & _);
          [now rewrite app_nil_r|].
        rewrite Hr4. reflexivity.
    + (* cut inside the operand *)
      pose proof (IH t1 m (eq_sym Ht1) fuel (skip 1 s) Hwf1 Hr1
                    ltac:(rewrite remaining_skip; lia)) as Hin.
      destruct (R.expression fuel (skip 1 s)) as [[v|k] s3|u|];
        cbn [ran_out] in Hin; try exact Hin.
      rewrite Hin. cbn [ws_run List.length].
      rewrite rest_skip, Hin. reflexivity.
  - (* an operator and its two operands *)
    destruct Ht as [->|(t1 & -> & Ht1)].
    { rewrite R_expression_at_end by (assumption || lia). reflexivity. }
    pose proof (remaining_pos s _ _ Hwf Hr) as Hrem.
    destruct (rest_cons s _ _ Hwf Hr) as (_ & _ & Hr1 & Hwf1).
    destruct (op_char_facts op) as (Hnw & Hnd & Hnp & Hop).
    destruct fuel as [|fuel]; [lia|].
    rewrite R_expression_unfold by assumption. unfold dispatch. cbv zeta.
    rewrite Hr. cbn [ws_run]. rewrite Hnw.
    cbn [List.length]. rewrite skip_0, Hr. rewrite Hnp, Hnd, Hop.
    apply app_eq_app in Ht1. destruct Ht1 as (m & [[Ht1 Hm]|[Ht1 Hm]]).
    + (* the left operand is complete *)
      subst t1.
      assert (Hm0 : ends_with_digit text1 = true ->
                    starts_with_digit m = false).
      { intros Hend. pose proof (parses_ends _ _ _ Hp1 Hend) as Hnext.
        destruct m as [|x m]; [reflexivity|].
        subst text2. exact Hnext. }
      pose proof (parses_follow _ _ _ Hp1 m Hm0) as Hpm.
      rewrite (R_expression_sound _ _ _ Hpm fuel (skip 1 s) Hwf1 Hr1)
        by (rewrite remaining_skip; lia).
      destruct (eval64 e1) as [u|a]; [exact I|].
      destruct (skip_prefix _ _ _ Hwf1 Hr1) as (Hwf3 & Hr3 & _).
      pose proof (IH2 m more (eq_sym Hm) fuel _ Hwf3 Hr3
                    ltac:(rewrite !remaining_skip; lia)) as Hright.
      destruct (R.expression fuel (skip (List.length text1) (skip 1 s)))
        as [[b|k] s4|u|]; cbn [ran_out] in Hright; try exact Hright.
      destruct (apply_op op a b); [exact I|exact Hright].
    + (* cut inside the left operand *)
      pose proof (IH1 t1 m (eq_sym Ht1) fuel (skip 1 s) Hwf1 Hr1
                    ltac:(rewrite remaining_skip; lia)) as Hleft.
      destruct (R.expression fuel (skip 1 s)) as [[a|k] s3|u|] eqn:Hrun;
        cbn [ran_out] in Hleft; try exact Hleft.
      destruct (preserves_done _ _ _ _ (preserves_R_expression fuel) Hwf1 Hrun)
        as [Hwf3 _].
      rewrite (R_expression_at_end fuel s3 Hwf3 Hleft) by lia.
      reflexivity.
Qed.

(** X7. Cutting a well-formed program short never produces
    [InvalidOperator] or [InvalidCharacter]: on every prefix of a
    well-formed program the parse either succeeds having read the whole
    prefix, or stops in an undefined division, or fails with
    [UnexpectedEOF]; so the only classification a cut-off program can get
    is [UnexpectedEOF].  Both parsers. *)
Theorem truncated_program_runs_out (program cut more : string) (e : expr) :
  well_formed program e ->
  program = (cut ++ more)%string ->
  ran_out (R.classify cut) /\
  ran_out (reify (E.classify cut)) /\
  (forall k, failure (R.classify cut) = Some k -> k = UnexpectedEOF) /\
  (forall k, thrown (E.classify cut) = Some k -> k = UnexpectedEOF).
Proof.
  intros Hw ->. unfold well_formed in Hw.
  rewrite list_ascii_of_string_app in Hw.
  assert (HR : ran_out (R.classify cut)).
  { unfold R.classify.
    apply (R_expression_truncated _ _ _ Hw (list_ascii_of_string cut)
             (list_ascii_of_string more) eq_refl).
    - apply wf_Parser_of.
    - apply rest_Parser_of.
    - apply fuel_for_enough, le_n. }
  assert (HK : forall k, failure (R.classify cut) = Some k ->
                         k = UnexpectedEOF).
  { intros k. destruct (R.classify cut) as [[v|k'] s|u|];
      cbn [failure ran_out] in *; try discriminate.
    intros H. injection H as <-. exact HR. }
  split; [exact HR|].
  split; [now rewrite <- classify_agree|].
  split; [exact HK|].
  unfold thrown. now rewrite <- classify_agree.
Qed.

Lemma truncated_program_runs_out_witness :
  well_formed "* (+ 1 2) 5"
    (Binary Mul
       (Paren (Binary Add (Number ["1"%char]) (Number ["2"%char])))
       (Number ["5"%char])) /\
  failure (R.classify "* (+ 1") = Some UnexpectedEOF.
Proof.
  assert (Hw : well_formed "* (+ 1 2) 5"
                 (Binary Mul
                    (Paren (Binary Add (Number ["1"%char]) (Number ["2"%char])))
                    (Number ["5"%char]))).
  { apply (parses_binary Mul (list_ascii_of_string " (+ 1 2)") _
             [" "; "5"]%char _ []).
    - apply parses_space; [reflexivity|].
      apply (parses_paren (list_ascii_of_string "+ 1 2") _ [] _);
        [|reflexivity].
      apply (parses_binary Add [" "; "1"]%char _ [" "; "2"]%char _ _);
        (apply parses_space; [reflexivity|]);
        (apply parses_number; [discriminate|reflexivity|reflexivity]).
    - apply parses_space; [reflexivity|].
      apply parses_number; [discriminate|reflexivity|reflexivity]. }
  split; [exact Hw|].
  pose proof (truncated_program_runs_out "* (+ 1 2) 5" "* (+ 1" " 2) 5" _
                Hw eq_refl) as T.
  destruct T as (_ & _ & T & _).
  destruct (failure (R.classify "* (+ 1")) as [k|] eqn:Hk.
  - now rewrite (T k eq_refl).
  - vm_compute in Hk. discriminate Hk.
Defined.

(** ** Where a failure is reported *)

Lemma failure_site_later (pre unread : list ascii) (k : ErrorKind)
  (remains : list ascii) :
  failure_site unread k remains -> failure_site (pre ++ unread) k remains.
Proof.
  destruct k; cbn [failure_site]; [| |exact (fun H => H)].
  - intros (read & c & -> & H). exists (pre ++ read), c.
    split; [now rewrite app_assoc|exact H].
  - intros (read & c & -> & H). exists (pre ++ read), c.
    split; [now rewrite app_assoc|exact H].
Qed.

Lemma R_expression_failure_site (fuel : nat) (s s' : Parser) (k : ErrorKind) :
  wf s -> remaining s < fuel ->
  R.expression fuel s = Done (R.Err k) s' ->
  failure_site (rest s) k (rest s').
Proof.
  revert s s' k. induction fuel as [|fuel IH]; intros s s' k Hwf Hfuel H;
    [lia|].
  rewrite R_expression_unfold in H by assumption.
  unfold dispatch in H. cbv zeta in H.
  destruct (ws_run_split (rest s)) as (Hsplit & _ & Hnext).
  pose proof (wf_after_ws s Hwf) as Hwf1.
  pose proof (later_remaining _ _ (later_skip (List.length (ws_run (rest s))) s))
    as Hrem1.
  rewrite <- rest_skip in Hsplit, Hnext.
  set (w1 := ws_run (rest s)) in *.
  set (s1 := skip (List.length w1) s) in *.
  rewrite Hsplit. apply failure_site_later.
  destruct (rest s1) as [|c l] eqn:Hr1.
  { injection H as <- <-. exact Hr1. }
  destruct (rest_cons s1 c l Hwf1 Hr1) as (_ & _ & Hr2 & Hwf2).
  pose proof (remaining_pos s1 c l Hwf1 Hr1) as Hpos.
  destruct (Ascii.eqb c "(") eqn:Hparen.
  - assert (Hwf3 : wf (skip (List.length (ws_run l)) (skip 1 s1))).
    { rewrite <- Hr2. apply wf_after_ws, Hwf2. }
    assert (Hlt : remaining (skip (List.length (ws_run l)) (skip 1 s1)) < fuel)
      by (rewrite !remaining_skip; lia).
    assert (Hl : l = ws_run l
                     ++ rest (skip (List.length (ws_run l)) (skip 1 s1))).
    { rewrite rest_skip, Hr2. apply ws_run_split. }
    set (w2 := ws_run l) in *.
    change (c :: l) with ([c] ++ l). rewrite Hl, app_assoc.
    apply failure_site_later.
    destruct (R.expression fuel (skip (List.length w2) (skip 1 s1)))
      as [[v|k3] s3|u|] eqn:Hinner; try discriminate.
    + destruct (R_expression_complete _ _ _ _ Hwf3 Hlt Hinner)
        as (ti & ei & Hri & _ & _).
      rewrite Hri. apply failure_site_later.
      destruct (ws_run_split (rest s3)) as (H3 & _ & H3next).
      rewrite <- rest_skip in H3, H3next.
      set (w3 := ws_run (rest s3)) in *.
      rewrite H3.
      destruct (rest (skip (List.length w3) s3)) as [|x l'] eqn:Hr4.
      { injection H as <- <-. exact Hr4. }
      destruct (Ascii.eqb_spec x ")") as [->|Hx]; [discriminate|].
      injection H as <- <-. rewrite rest_skip, Hr4. cbn [skipn].
      exists w3, x. now repeat split.
    + injection H as <- <-. exact (IH _ _ _ Hwf3 Hlt Hinner).
  - destruct (isdigit c) eqn:Hdigit; [discriminate|].
    destruct (operator_of c) as [op|] eqn:Hop.
    + assert (Hlt : remaining (skip 1 s1) < fuel)
        by (rewrite remaining_skip; lia).
      change (c :: l) with ([c] ++ l). rewrite <- Hr2.
      apply failure_site_later.
      destruct (R.expression fuel (skip 1 s1)) as [[a|k3] s3|u|] eqn:Hleft;
        try discriminate.
      * destruct (preserves_done _ _ _ _ (preserves_R_expression fuel)
                    Hwf2 Hleft) as [Hwf3 Hl3].
        apply later_remaining in Hl3.
        destruct (R_expression_complete _ _ _ _ Hwf2 Hlt Hleft)
          as (t1 & e1 & Ht1 & _ & _).
        rewrite Ht1. apply failure_site_later.
        destruct (R.expression fuel s3) as [[b|k4] s4|u|] eqn:Hright;
          try discriminate.
        -- destruct (apply_op op a b); discriminate.
        -- injection H as <- <-. apply (IH _ _ _ Hwf3 ltac:(lia) Hright).
      * injection H as <- <-. exact (IH _ _ _ Hwf2 Hlt Hleft).
    + injection H as <- <-. rewrite Hr2.
      exists [], c. apply Ascii.eqb_neq in Hparen. now repeat split.
Qed.

(** X8. A failure is reported where it occurs.  When [expression] fails
    from a well-formed state, [UnexpectedEOF] comes with the whole input
    read; [InvalidOperator] comes with the cursor just behind a character
    that is no operator, no digit, no ['('] and no whitespace;
    [InvalidCharacter] with the cursor just behind a character that is
    neither [')'] nor whitespace.  Both parsers. *)
Theorem failure_reported_in_place (fuel : nat) (s s' : Parser)
  (k : ErrorKind) :
  wf s -> remaining s < fuel ->
  (R.expression fuel s = Done (R.Err k) s' ->
   failure_site (rest s) k (rest s')) /\
  (E.expression fuel s = Done (E.Thrown (E.mkError k)) s' ->
   failure_site (rest s) k (rest s')).
Proof.
  intros Hwf Hfuel. split.
  - now apply R_expression_failure_site.
  - intros HE. apply (R_expression_failure_site fuel s s' k Hwf Hfuel).
    now rewrite expression_agree, HE.
Qed.

Lemma failure_reported_in_place_witness :
  wf (Parser_of "(+ 1 2 x)") /\ remaining (Parser_of "(+ 1 2 x)") < 10 /\
  failure_site (rest (Parser_of "(+ 1 2 x)")) InvalidCharacter [")"%char].
Proof.
  assert (Hwf : wf (Parser_of "(+ 1 2 x)")) by (split; simpl; lia).
  assert (Hfuel : remaining (Parser_of "(+ 1 2 x)") < 10)
    by (unfold remaining; simpl; lia).
  split; [exact Hwf|]. split; [exact Hfuel|].
  exact (proj1 (failure_reported_in_place 10 (Parser_of "(+ 1 2 x)")
                  (skip 8 (Parser_of "(+ 1 2 x)")) InvalidCharacter
                  Hwf Hfuel) eq_refl).
Defined.

(** ** The benchmark state *)

Lemma to_uint64_range (z : Z) : (0 <= to_uint64 z < 2 ^ 64)%Z.
Proof. unfold to_uint64. apply Z.mod_pos_bound. lia. Qed.

Lemma to_uint64_small (z : Z) : (0 <= z < 2 ^ 64)%Z -> to_uint64 z = z.
Proof. unfold to_uint64. apply Z.mod_small. Qed.

Lemma to_uint64_step (state r : Z) (n : nat) :
  to_uint64 (to_uint64 (state + to_uint64 r) + Z.of_nat n * r) =
  to_uint64 (state + Z.of_nat (S n) * r).
Proof.
  unfold to_uint64.
  rewrite Zplus_mod_idemp_l, <- Z.add_assoc, (Z.add_comm (r mod 2 ^ 64)).
  rewrite Z.add_assoc, Zplus_mod_idemp_r. f_equal. lia.
Qed.

(** The loop run with a test that always returns [r]. *)
Lemma run_benchmark_constant (test_run : Z -> behaviour) (r : Z) :
  (forall state, test_run state = Returns (to_uint64 r)) ->
  forall iterations state,
    (0 <= state < 2 ^ 64)%Z ->
    run_benchmark test_run state iterations =
    Returns (to_uint64 (state + Z.of_nat iterations * r)).
Proof.
  intros Hrun. induction iterations as [|n IH]; intros state Hstate.
  - cbn [run_benchmark]. rewrite Z.mul_0_l, Z.add_0_r.
    now rewrite to_uint64_small.
  - cbn [run_benchmark]. rewrite Hrun, IH by apply to_uint64_range.
    now rewrite to_uint64_step.
Qed.

Lemma run_benchmark_crash (test_run : Z -> behaviour) (u : Undefined) :
  (forall state, test_run state = Crashes u) ->
  forall iterations state,
    0 < iterations -> run_benchmark test_run state iterations = Crashes u.
Proof.
  intros Hrun [|n] state Hn; [lia|]. cbn [run_benchmark]. now rewrite Hrun.
Qed.

Lemma test_runs_agree (program : string) (state : Z) :
  TestParserWithExceptions_run program state =
  TestParserWithResults_run program state.
Proof.
  unfold TestParserWithExceptions_run, TestParserWithResults_run.
  now rewrite execute_agree.
Qed.

Lemma run_benchmark_ext (run1 run2 : Z -> behaviour) :
  (forall state, run1 state = run2 state) ->
  forall iterations state,
    run_benchmark run1 state iterations = run_benchmark run2 state iterations.
Proof.
  intros Hext. induction iterations as [|n IH]; intros state; [reflexivity|].
  cbn [run_benchmark]. rewrite Hext.
  destruct (run2 state); [apply IH|reflexivity|reflexivity].
Qed.

(** X9. What a benchmark computes.  Started from a [uint64_t] state, the
    loop of [run_benchmark] over a program on which [execute] returns [v]
    ends with the state increased by [iterations * v] modulo [2^64]; over a
    program that fails to parse it ends with the state it started from;
    over one that crashes [execute] it crashes in the first iteration.  The
    test with the exception-based parser and the test with the
    result-based parser compute the same. *)
Theorem benchmark_accumulates (program : string) (state : Z)
  (iterations : nat) :
  (0 <= state < 2 ^ 64)%Z ->
  run_benchmark (TestParserWithExceptions_run program) state iterations =
  run_benchmark (TestParserWithResults_run program) state iterations /\
  match R.execute program with
  | Returns v =>
      run_benchmark (TestParserWithResults_run program) state iterations =
      Returns (to_uint64 (state + Z.of_nat iterations * v))
  | Crashes u =>
      0 < iterations ->
      run_benchmark (TestParserWithResults_run program) state iterations =
      Crashes u
  | Unfinished => False
  end /\
  (forall k, failure (R.classify program) = Some k ->
             run_benchmark (TestParserWithResults_run program) state iterations
             = Returns state).
Proof.
  intros Hstate.
  split; [apply run_benchmark_ext; intros st; apply test_runs_agree|].
  assert (Hmain :
            match R.execute program with
            | Returns v =>
                run_benchmark (TestParserWithResults_run program) state
                  iterations =
                Returns (to_uint64 (state + Z.of_nat iterations * v))
            | Crashes u =>
                0 < iterations ->
                run_benchmark (TestParserWithResults_run program) state
                  iterations = Crashes u
            | Unfinished => False
            end).
  { destruct (R.execute program) as [v|u|] eqn:Hexec.
    - apply run_benchmark_constant; [|exact Hstate].
      intros st. unfold TestParserWithResults_run. now rewrite Hexec.
    - apply run_benchmark_crash.
      intros st. unfold TestParserWithResults_run. now rewrite Hexec.
    - revert Hexec. rewrite R_execute_eq.
      pose proof (R_expression_finishes _ _ (wf_Parser_of program)
                    (fuel_for_enough program _ (le_n _))) as Hfin.
      unfold finishes in Hfin. fold (R.classify program) in Hfin.
      destruct (R.classify program) as [[v|k] s|u|]; try discriminate.
      contradiction. }
  split; [exact Hmain|].
  intros k Hk. rewrite R_execute_eq in Hmain.
  destruct (R.classify program) as [[v|k'] s|u|]; try discriminate Hk.
  rewrite Hmain, Z.mul_0_r, Z.add_0_r. now rewrite to_uint64_small.
Qed.

Lemma benchmark_accumulates_witness :
  (0 <= 5 < 2 ^ 64)%Z /\
  run_benchmark (TestParserWithResults_run "+ 3 4") 5 1000 = Returns 7005%Z.
Proof.
  assert (H : (0 <= 5 < 2 ^ 64)%Z) by lia.
  split; [exact H|].
  exact (proj1 (proj2 (benchmark_accumulates "+ 3 4" 5 1000 H))).
Defined.
